(** * drawsimplifier: the segment graph and the polyline extraction

    A shallow embedding of [src/drawsimplifier/simplify_dxf.py]
    ([round_point], [build_graph], [get_edge_key],
    [find_endpoints_and_junctions], [trace_path], [extract_polylines] and
    the statistics of [simplify_dxf_bytes]) with the properties the
    specification states about them.

    Modelling choices.
    - A raw coordinate (a Python float) is an exact rational [Q]; a rounded
      coordinate, the result of [round(x, 6)], is the integer number of
      10^-6 units it denotes, so that equality and order of rounded points
      are equality and order on [Z * Z].
    - The graph is a Python dict filled in insertion order: an association
      list with one entry per key, in order of first insertion.
    - [endpoints], [junctions] and [visited_edges] are Python sets: [gset].
      The program iterates over the first two; the order in which a Python
      set yields its elements is not specified, so it is a parameter
      [set_order] of the extraction, constrained only to enumerate the set.
    - [while True] in [trace_path] is a loop on a fuel counter; running out
      of fuel is the result [None], and the theorems show it never happens. *)

From Stdlib Require Import QArith.
From stdpp Require Import base gmap list strings.

Local Open Scope Z_scope.
Set Warnings "-clear-no-such-hyp".


(** ** Points, edges, segments *)

Abbreviation Point := (Z * Z)%type.
Abbreviation Edge := ((Z * Z) * (Z * Z))%type.
Abbreviation Graph := (list ((Z * Z) * list (Z * Z))).
Abbreviation Polyline := (list (Z * Z)).

(** [line.dxf.start] and [line.dxf.end] of a LINE entity. *)
Record Vec2 : Type := mkVec2 { vx : Q; vy : Q }.
Record Line : Type := mkLine { line_start : Vec2; line_end : Vec2 }.

(** Nearest integer, ties to the even one: what Python's [round] does. *)
Definition round_half_even (q : Q) : Z :=
  let n := Qnum q in
  let d := Z.pos (Qden q) in
  let fl := n / d in
  let r := n mod d in
  if 2 * r <? d then fl
  else if d <? 2 * r then fl + 1
  else if Z.even fl then fl else fl + 1.

(** [round(x, decimals)], in units of 10^-decimals. *)
Definition round_ndigits (x : Q) (decimals : Z) : Z :=
  round_half_even (Qmult x (inject_Z (10 ^ decimals))).

Definition round_point (x y : Q) : Point :=
  (round_ndigits x 6, round_ndigits y 6).

(** The raw coordinate a rounded one stands for. *)
Definition coord_value (z : Z) : Q := Qmake z (Pos.pow 10 6).

(** Python compares tuples lexicographically. *)
Definition point_ltb (p q : Point) : bool :=
  (p.1 <? q.1) || ((p.1 =? q.1) && (p.2 <? q.2)).

(** [min(p1, p2)] and [max(p1, p2)]: the first argument unless the second
    is strictly smaller (resp. larger). *)
Definition point_min (p1 p2 : Point) : Point :=
  if point_ltb p2 p1 then p2 else p1.
Definition point_max (p1 p2 : Point) : Point :=
  if point_ltb p1 p2 then p2 else p1.

Definition get_edge_key (p1 p2 : Point) : Edge :=
  (point_min p1 p2, point_max p1 p2).

(** ** The graph: a dict from a point to the list of its neighbours *)

(** [graph[p]]; a key that is absent reads as the empty list (the dict is
    a [defaultdict(list)]).  On the graphs [build_graph] returns every
    point that is looked up is a key, see [build_graph_closed]. *)
Fixpoint graph_get (graph : Graph) (p : Point) : list Point :=
  match graph with
  | [] => []
  | (q, neighbors) :: rest =>
      if decide (q = p) then neighbors else graph_get rest p
  end.

(** [graph[p].append(n)]: a new key goes after the existing ones. *)
Fixpoint graph_append (graph : Graph) (p n : Point) : Graph :=
  match graph with
  | [] => [(p, [n])]
  | (q, neighbors) :: rest =>
      if decide (q = p) then (q, neighbors ++ [n]) :: rest
      else (q, neighbors) :: graph_append rest p n
  end.

Definition line_points (line : Line) : Point * Point :=
  (round_point (vx (line_start line)) (vy (line_start line)),
   round_point (vx (line_end line)) (vy (line_end line))).

(** One iteration of the loop of [build_graph]. *)
Definition add_line (graph : Graph) (line : Line) : Graph :=
  let '(start, end_) := line_points line in
  if decide (start = end_) then graph
  else graph_append (graph_append graph start end_) end_ start.

Definition build_graph (lines : list Line) : Graph :=
  foldl add_line [] lines.

(** One iteration of the loop of [find_endpoints_and_junctions]. *)
Definition classify (acc : gset Point * gset Point)
    (item : Point * list Point) : gset Point * gset Point :=
  let degree := length item.2 in
  if decide (degree = 1%nat) then ({[ item.1 ]} ∪ acc.1, acc.2)
  else if decide (3 ≤ degree)%nat then (acc.1, {[ item.1 ]} ∪ acc.2)
  else acc.

Definition find_endpoints_and_junctions (graph : Graph)
    : gset Point * gset Point :=
  foldl classify (∅, ∅) graph.

(** ** The path tracer *)

(** The [for neighbor in neighbors] loop of [trace_path]: the first
    neighbour whose edge key is not visited yet. *)
Fixpoint first_unvisited (current : Point) (neighbors : list Point)
    (visited_edges : gset Edge) : option Point :=
  match neighbors with
  | [] => None
  | neighbor :: rest =>
      if decide (get_edge_key current neighbor ∈ visited_edges)
      then first_unvisited current rest visited_edges
      else Some neighbor
  end.

(** The [while True] loop of [trace_path], one iteration per unit of fuel.
    The result is the path and the visited set as the loop leaves them. *)
Fixpoint trace_loop (fuel : nat) (graph : Graph)
    (endpoints junctions : gset Point) (path : Polyline) (current : Point)
    (visited_edges : gset Edge) : option (Polyline * gset Edge) :=
  match fuel with
  | O => None
  | S fuel' =>
      match first_unvisited current (graph_get graph current) visited_edges with
      | None => Some (path, visited_edges)
      | Some next_point =>
          let visited' := {[ get_edge_key current next_point ]} ∪ visited_edges in
          let path' := path ++ [next_point] in
          if decide (next_point ∈ endpoints ∨ next_point ∈ junctions)
          then Some (path', visited')
          else trace_loop fuel' graph endpoints junctions path' next_point visited'
      end
  end.

(** Every neighbour entry of the graph, as the edge key it stands for. *)
Definition graph_edges (graph : Graph) : list Edge :=
  item ← graph; get_edge_key item.1 <$> item.2.

(** Enough iterations for any trace: one per neighbour entry, and one to
    find that nothing is left. *)
Definition trace_fuel (graph : Graph) : nat := S (length (graph_edges graph)).

Definition trace_path (start : Point) (graph : Graph)
    (visited_edges : gset Edge) (endpoints junctions : gset Point)
    : option (Polyline * gset Edge) :=
  trace_loop (trace_fuel graph) graph endpoints junctions [start] start
    visited_edges.

(** ** The extraction *)

(** The shared state of [extract_polylines]: [visited_edges], [polylines]. *)
Abbreviation ExtractState := (gset ((Z * Z) * (Z * Z)) * list (list (Z * Z)))%type.

(** [for neighbor in graph[point]: ...], the body of each of the three
    phases, over the neighbours still to enumerate. *)
Fixpoint sweep_neighbors (graph : Graph) (endpoints junctions : gset Point)
    (point : Point) (neighbors : list Point) (st : ExtractState)
    : option ExtractState :=
  match neighbors with
  | [] => Some st
  | neighbor :: rest =>
      if decide (get_edge_key point neighbor ∈ st.1)
      then sweep_neighbors graph endpoints junctions point rest st
      else
        '(path, visited') ← trace_path point graph st.1 endpoints junctions;
        sweep_neighbors graph endpoints junctions point rest
          (visited',
           if decide (2 ≤ length path)%nat then st.2 ++ [path] else st.2)
  end.

(** One phase: [for point in points: for neighbor in graph[point]: ...]. *)
Fixpoint sweep_points (graph : Graph) (endpoints junctions : gset Point)
    (points : list Point) (st : ExtractState) : option ExtractState :=
  match points with
  | [] => Some st
  | point :: rest =>
      st' ← sweep_neighbors graph endpoints junctions point
              (graph_get graph point) st;
      sweep_points graph endpoints junctions rest st'
  end.

Section Extraction.
(** The order in which iterating a Python set yields its elements. *)
Variable set_order : gset Point → list Point.

Definition phase1 (graph : Graph) : option ExtractState :=
  let '(endpoints, junctions) := find_endpoints_and_junctions graph in
  sweep_points graph endpoints junctions (set_order endpoints) (∅, []).

Definition phase2 (graph : Graph) : option ExtractState :=
  let '(endpoints, junctions) := find_endpoints_and_junctions graph in
  st1 ← phase1 graph;
  sweep_points graph endpoints junctions (set_order junctions) st1.

Definition phase3 (graph : Graph) : option ExtractState :=
  let '(endpoints, junctions) := find_endpoints_and_junctions graph in
  st2 ← phase2 graph;
  sweep_points graph endpoints junctions graph.*1 st2.

(** [extract_polylines] returns [polylines]; [phase3] also gives the
    visited set at that moment. *)
Definition extract_polylines (graph : Graph) : option (list Polyline) :=
  snd <$> phase3 graph.
End Extraction.

(** The edges a polyline draws: its consecutive point pairs. *)
Fixpoint polyline_edges (path : Polyline) : list Edge :=
  match path with
  | p :: (q :: _) as rest => get_edge_key p q :: polyline_edges rest
  | _ => []
  end.

Definition polylines_edges (polylines : list Polyline) : list Edge :=
  polylines ≫= polyline_edges.

(** ** The caller: [simplify_dxf_bytes]

    Reading and writing the DXF container is the work of [ezdxf]; the
    model starts from the entities of the modelspace and ends with the
    entities added to the new modelspace and the statistics dict. *)

Inductive Entity : Type :=
  | LINE (line : Line)
  | OTHER (dxftype : string) (copyable : bool).

Inductive OutEntity : Type :=
  | LWPOLYLINE (points : Polyline)
  | COPIED (dxftype : string).

(** A number in the statistics dict: an [int], or the [float] that [/]
    returns (the exact quotient stands for the nearest double). *)
Inductive PyNum : Type :=
  | PyInt (n : Z)
  | PyFloat (x : Q).

Inductive Outcome : Type :=
  | ValueError (msg : string)
  | Returned (output : list OutEntity) (stats : gmap string PyNum).

(** [msp.query("LINE")] *)
Definition query_lines (msp : list Entity) : list Line :=
  omap (λ e, match e with LINE l => Some l | OTHER _ _ => None end) msp.

(** The entities other than LINE whose [copy()] does not raise. *)
Definition copy_others (msp : list Entity) : list OutEntity :=
  omap (λ e, match e with
             | OTHER t true => Some (COPIED t)
             | _ => None
             end) msp.

Definition int_len {A} (l : list A) : Z := Z.of_nat (length l).

Definition reduction_ratio (original_line_count : Z)
    (polylines : list Polyline) : PyNum :=
  match polylines with
  | [] => PyInt 0
  | _ :: _ =>
      PyFloat (Qdiv (inject_Z original_line_count)
                    (inject_Z (int_len polylines)))
  end.

Section Caller.
Variable set_order : gset Point → list Point.

Definition simplify_dxf_bytes (msp : list Entity) : option Outcome :=
  let lines := query_lines msp in
  let original_line_count := int_len lines in
  if decide (original_line_count = 0)
  then Some (ValueError "No LINE entities found. Nothing to simplify.")
  else
    let graph := build_graph lines in
    let '(endpoints, junctions) := find_endpoints_and_junctions graph in
    polylines ← extract_polylines set_order graph;
    let other := copy_others msp in
    Some (Returned ((LWPOLYLINE <$> polylines) ++ other)
      (<["original_line_count" := PyInt original_line_count]>
       (<["unique_points" := PyInt (int_len graph)]>
       (<["endpoints" := PyInt (Z.of_nat (size endpoints))]>
       (<["junctions" := PyInt (Z.of_nat (size junctions))]>
       (<["polyline_count" := PyInt (int_len polylines)]>
       (<["other_entities" := PyInt (int_len other)]>
       (<["reduction_ratio" :=
            reduction_ratio original_line_count polylines]> ∅)))))))).
End Caller.

(** Feeding polylines back in: every consecutive point pair is a LINE. *)
Definition point_vec (p : Point) : Vec2 :=
  mkVec2 (coord_value p.1) (coord_value p.2).

Fixpoint polyline_lines (path : Polyline) : list Line :=
  match path with
  | p :: (q :: _) as rest => mkLine (point_vec p) (point_vec q) :: polyline_lines rest
  | _ => []
  end.

Definition polylines_lines (polylines : list Polyline) : list Line :=
  polylines ≫= polyline_lines.

(** A LINE between two points given in whole units. *)
Definition seg (a b c d : Z) : Line :=
  mkLine (mkVec2 (inject_Z a) (inject_Z b)) (mkVec2 (inject_Z c) (inject_Z d)).

(** ** Notions used by the statements *)

(** The segments that survive the zero-length test, after rounding. *)
Definition usable_segments (lines : list Line) : list (Point * Point) :=
  filter (λ s, s.1 ≠ s.2) (line_points <$> lines).

(** What one usable segment appends to [graph[p]]. *)
Definition segment_neighbors (p : Point) (s : Point * Point) : list Point :=
  (if decide (s.1 = p) then [s.2] else []) ++
  (if decide (s.2 = p) then [s.1] else []).

(** Every neighbour is a key: no lookup of the extraction misses. *)
Definition graph_closed (graph : Graph) : Prop :=
  Forall (λ item, Forall (λ n, n ∈ graph.*1) item.2) graph.

(** Every consecutive pair of the path is an entry of the graph. *)
Fixpoint adjacent (graph : Graph) (path : Polyline) : Prop :=
  match path with
  | p :: (q :: _) as rest => q ∈ graph_get graph p ∧ adjacent graph rest
  | _ => True
  end.

(** Neither an endpoint nor a junction. *)
Definition pass_through (endpoints junctions : gset Point) (p : Point) : Prop :=
  (p ∉ endpoints) ∧ (p ∉ junctions).

(** The points of a path other than its two ends. *)
Definition interior (path : Polyline) : Polyline := removelast (tail path).

(** What every traced path satisfies. *)
Record path_ok (graph : Graph) (endpoints junctions : gset Point)
    (path : Polyline) : Prop := {
  path_adjacent : adjacent graph path;
  path_interior : Forall (pass_through endpoints junctions) (interior path);
  path_length : (2 ≤ length path)%nat
}.

(** How many times [x] occurs in [l]. *)
Definition occurrences {A} `{EqDecision A} (x : A) (l : list A) : nat :=
  length (filter (x =.) l).

(** The edge keys of the usable segments, one per segment. *)
Definition segment_keys (lines : list Line) : list Edge :=
  (λ s, get_edge_key s.1 s.2) <$> usable_segments lines.

(** The segment joins [a] and [b], in either direction. *)
Definition joins (a b : Point) (s : Point * Point) : Prop :=
  s = (a, b) ∨ s = (b, a).

(** The segment has an end at [p]. *)
Definition touches (p : Point) (s : Point * Point) : Prop :=
  s.1 = p ∨ s.2 = p.

#[local] Instance joins_dec a b s : Decision (joins a b s).
Proof. unfold joins. apply _. Defined.
#[local] Instance touches_dec p s : Decision (touches p s).
Proof. unfold touches. apply _. Defined.

(** Iterating a Python set yields each of its elements once. *)
Definition set_order_ok (set_order : gset Point → list Point) : Prop :=
  ∀ s, set_order s ≡ₚ elements s.

Definition junction_lines : list Line :=
  [seg 0 0 1 0; seg 1 0 2 0; seg 1 0 1 1].

(** The neighbour list holds [x] and [y], in either order. *)
Definition two_neighbors (l : list Point) (x y : Point) : Prop :=
  l = [x; y] ∨ l = [y; x].

(** The edge keys of the four sides of the square [a b c d]. *)
Definition square_keys (a b c d : Point) : list Edge :=
  [get_edge_key a b; get_edge_key b c; get_edge_key c d; get_edge_key d a].

(** The iterations of the loop of [trace_path], as a relation: from
    [current] with the visited set [vis], the loop appends [ext] to the
    path and leaves the visited set [vis']. *)
Inductive traced (graph : Graph) (endpoints junctions : gset Point)
    : Point → gset Edge → list Point → gset Edge → Prop :=
  | traced_stop current vis :
      first_unvisited current (graph_get graph current) vis = None →
      traced graph endpoints junctions current vis [] vis
  | traced_boundary current vis next_point :
      first_unvisited current (graph_get graph current) vis = Some next_point →
      next_point ∈ endpoints ∨ next_point ∈ junctions →
      traced graph endpoints junctions current vis [next_point]
        ({[ get_edge_key current next_point ]} ∪ vis)
  | traced_step current vis next_point ext vis' :
      first_unvisited current (graph_get graph current) vis = Some next_point →
      ¬ (next_point ∈ endpoints ∨ next_point ∈ junctions) →
      traced graph endpoints junctions next_point
        ({[ get_edge_key current next_point ]} ∪ vis) ext vis' →
      traced graph endpoints junctions current vis (next_point :: ext) vis'.

(** The visited set is exactly the set of edges drawn so far, and none
    of them is drawn twice. *)
Record state_ok (graph : Graph) (endpoints junctions : gset Point)
    (st : ExtractState) : Prop := {
  state_NoDup : NoDup (polylines_edges st.2);
  state_visited : ∀ e, e ∈ st.1 ↔ e ∈ polylines_edges st.2;
  state_paths : Forall (path_ok graph endpoints junctions) st.2
}.

(** Four points joined in a cycle [s - n1 - o - n2 - s], and nothing else
    at any of them. *)
Record is_square (graph : Graph) (s n1 o n2 : Point) : Prop := {
  square_distinct : NoDup [s; n1; o; n2];
  square_s : two_neighbors (graph_get graph s) n1 n2;
  square_n1 : two_neighbors (graph_get graph n1) s o;
  square_o : two_neighbors (graph_get graph o) n1 n2;
  square_n2 : two_neighbors (graph_get graph n2) o s
}.

(** Every edge at an endpoint or at a junction is visited. *)
Definition boundary_drained (graph : Graph) (endpoints junctions : gset Point)
    (vis : gset Edge) : Prop :=
  ∀ p n, p ∈ endpoints ∨ p ∈ junctions → n ∈ graph_get graph p →
         get_edge_key p n ∈ vis.

(** ** The SVG reader: [simplify_svg.py]

    The regular expressions that cut an attribute into tokens, and the
    XML tree, are the work of [re] and [ElementTree]; the model starts
    from the tokens and from the elements in document order. *)

Module Svg.

(** The letters the token pattern of [parse_path_d] accepts. *)
Inductive Command : Type :=
  | cmd_M | cmd_m | cmd_L | cmd_l | cmd_H | cmd_h | cmd_V | cmd_v | cmd_Z | cmd_z.

(** A token of a path: a command letter, or a number. *)
Inductive Token : Type :=
  | TCmd (c : Command)
  | TNum (x : Q).

(** [start = round_point(...); end = round_point(...);
    if start != end: segments.append((start, end))] *)
Definition emit (a b : Q * Q) : list (Point * Point) :=
  let start := round_point a.1 a.2 in
  let end_ := round_point b.1 b.2 in
  if decide (start = end_) then [] else [(start, end_)].

(** The [while i < len(tokens)] loop of [parse_path_d], on the tokens
    from index [i] on; the result is what the loop appends to [segments]. *)
Fixpoint parse_tokens (tokens : list Token) (current_pos path_start : Q * Q)
    (command : Command) : list (Point * Point) :=
  match tokens with
  | [] => []
  | TCmd c :: rest =>
      match c with
      | cmd_Z | cmd_z =>
          emit current_pos path_start ++ parse_tokens rest path_start path_start c
      | _ => parse_tokens rest current_pos path_start c
      end
  | TNum x :: rest =>
      match command with
      | cmd_M | cmd_m =>
          match rest with
          | TNum y :: rest' =>
              let current_pos' :=
                match command with
                | cmd_m => (Qplus current_pos.1 x, Qplus current_pos.2 y)
                | _ => (x, y)
                end in
              parse_tokens rest' current_pos' current_pos'
                match command with cmd_M => cmd_L | _ => cmd_l end
          | _ => parse_tokens rest current_pos path_start command
          end
      | cmd_L | cmd_l =>
          match rest with
          | TNum y :: rest' =>
              let new_pos :=
                match command with
                | cmd_l => (Qplus current_pos.1 x, Qplus current_pos.2 y)
                | _ => (x, y)
                end in
              emit current_pos new_pos ++ parse_tokens rest' new_pos path_start command
          | _ => parse_tokens rest current_pos path_start command
          end
      | cmd_H | cmd_h =>
          let new_pos :=
            match command with
            | cmd_h => (Qplus current_pos.1 x, current_pos.2)
            | _ => (x, current_pos.2)
            end in
          emit current_pos new_pos ++ parse_tokens rest new_pos path_start command
      | cmd_V | cmd_v =>
          let new_pos :=
            match command with
            | cmd_v => (current_pos.1, Qplus current_pos.2 x)
            | _ => (current_pos.1, x)
            end in
          emit current_pos new_pos ++ parse_tokens rest new_pos path_start command
      | cmd_Z | cmd_z => parse_tokens rest current_pos path_start command
      end
  end.

Definition parse_path_d (tokens : list Token) : list (Point * Point) :=
  parse_tokens tokens (0%Q, 0%Q) (0%Q, 0%Q) cmd_M.



(** [for i in range(0, len(numbers) - 1, 2)]: the numbers two by two. *)
Fixpoint pair_points (numbers : list Q) : list Point :=
  match numbers with
  | x :: y :: rest => round_point x y :: pair_points rest
  | _ => []
  end.

(** [for i in range(len(points) - 1)]: the consecutive points that differ. *)
Fixpoint consecutive_segments (points : list Point) : list (Point * Point) :=
  match points with
  | p :: (q :: _) as rest =>
      (if decide (p = q) then [] else [(p, q)]) ++ consecutive_segments rest
  | _ => []
  end.

(** [numbers] are the numbers of the [points] attribute; [polygon] says
    whether the tag ends with [polygon]. *)
Definition parse_polyline_element (numbers : list Q) (polygon : bool)
    : list (Point * Point) :=
  let points := pair_points numbers in
  consecutive_segments points ++
  (if polygon && bool_decide (2 ≤ length points)%nat
   then match last points, head points with
        | Some l, Some f => if decide (l = f) then [] else [(l, f)]
        | _, _ => []
        end
   else []).



(** One iteration of the loop of [build_graph], on rounded segments. *)
Definition add_segment (graph : Graph) (segment : Point * Point) : Graph :=
  let '(start, end_) := segment in
  if decide (start = end_) then graph
  else graph_append (graph_append graph start end_) end_ start.

Definition build_graph (segments : list (Point * Point)) : Graph :=
  foldl add_segment [] segments.

End Svg.

(** The closing segment, on rounded points. *)
Definition closing (polygon : bool) (l f : Point) : list (Point * Point) :=
  if polygon then (if decide (l = f) then [] else [(l, f)]) else [].

(** ** The converter: [converter.py]

    As in [simplify_dxf_bytes], the DXF and XML containers are not
    modelled: a drawing is the list of the entities of its modelspace,
    an SVG document the record of what is written into it. *)

Module Converter.

(** The entities [extract_polylines_from_dxf] queries, with the
    coordinates it reads from them. *)
Inductive Entity : Type :=
  | LWPOLYLINE (points : list (Q * Q))
  | POLYLINE (vertices : list (Q * Q))
  | LINE (start end_ : Q * Q)
  | OTHER (dxftype : string).

Definition extract_polylines_from_dxf (msp : list Entity) : list (list (Q * Q)) :=
  omap (λ e, match e with
             | LWPOLYLINE points =>
                 if decide (2 ≤ length points)%nat then Some points else None
             | _ => None
             end) msp ++
  omap (λ e, match e with
             | POLYLINE points =>
                 if decide (2 ≤ length points)%nat then Some points else None
             | _ => None
             end) msp ++
  omap (λ e, match e with
             | LINE start end_ => Some [start; end_]
             | _ => None
             end) msp.

(** [min(...)] and [max(...)] of a sequence: [None] stands for the
    [ValueError] they raise on an empty one. *)
Definition py_min (l : list Q) : option Q :=
  match l with
  | [] => None
  | x :: rest => Some (foldl (λ m y, if Qlt_le_dec y m then y else m) x rest)
  end.

Definition py_max (l : list Q) : option Q :=
  match l with
  | [] => None
  | x :: rest => Some (foldl (λ m y, if Qlt_le_dec m y then y else m) x rest)
  end.

(** What [polylines_to_svg] writes: the [width] and [height] with their
    units, the four numbers of the [viewBox], and for each [<path>] the
    points of its [d], the first after [M] and each other after [L]. *)
Record SvgDocument : Type := mkSvgDocument {
  svg_width : Q;
  svg_height : Q;
  svg_units : string;
  view_box : Q * Q * Q * Q;
  svg_paths : list (list (Q * Q))
}.

(** [value or fallback], on an optional number. *)
Definition or_else (value : option Q) (fallback : Q) : Q :=
  match value with
  | Some w => if Qeq_bool w 0 then fallback else w
  | None => fallback
  end.

Definition bounds (polylines : list (list (Q * Q))) : option (Q * Q * Q * Q) :=
  match polylines with
  | [] => Some (0%Q, 0%Q, inject_Z 100, inject_Z 100)
  | _ :: _ =>
      let all_points := p ← polylines; p in
      min_x ← py_min (fst <$> all_points);
      max_x ← py_max (fst <$> all_points);
      min_y ← py_min (snd <$> all_points);
      max_y ← py_max (snd <$> all_points);
      Some (min_x, min_y, max_x, max_y)
  end.

Definition polylines_to_svg (polylines : list (list (Q * Q)))
    (width height : option Q) (units : string) : option SvgDocument :=
  match bounds polylines with
  | None => None
  | Some (min_x, min_y, max_x, max_y) =>
      Some {|
        svg_width := or_else width (Qminus max_x min_x);
        svg_height := or_else height (Qminus max_y min_y);
        svg_units := units;
        view_box := (min_x, Qopp max_y, Qminus max_x min_x, Qminus max_y min_y);
        svg_paths :=
          (λ points : list (Q * Q), (λ p : Q * Q, (p.1, Qopp p.2)) <$> points) <$>
          filter (λ points : list (Q * Q), ¬ (length points < 2)%nat) polylines
      |}
  end.

Definition dxf_to_svg (msp : list Entity) : option SvgDocument :=
  polylines_to_svg (extract_polylines_from_dxf msp) None None "mm".


End Converter.

(** * Properties *)

(** ** Edge keys *)

Ltac point_order :=
  unfold get_edge_key, point_min, point_max, point_ltb; simpl;
  repeat match goal with
         | |- context [?a <? ?b] => destruct (Z.ltb_spec a b)
         | |- context [?a =? ?b] => destruct (Z.eqb_spec a b)
         end; simpl.

Lemma get_edge_key_comm (p q : Point) : get_edge_key p q = get_edge_key q p.
Proof.
  destruct p as [px py], q as [qx qy].
  point_order; f_equal; f_equal; lia.
Qed.

Lemma get_edge_key_ends (p q : Point) :
  get_edge_key p q = (p, q) ∨ get_edge_key p q = (q, p).
Proof.
  destruct p as [px py], q as [qx qy].
  point_order; auto; left; f_equal; f_equal; lia.
Qed.

Lemma get_edge_key_inj (p q p' q' : Point) :
  get_edge_key p q = get_edge_key p' q' →
  (p = p' ∧ q = q') ∨ (p = q' ∧ q = p').
Proof.
  intros Heq.
  destruct (get_edge_key_ends p q) as [H1|H1],
           (get_edge_key_ends p' q') as [H2|H2];
    rewrite H1, H2 in Heq; inversion Heq; subst; auto.
Qed.

(** ** The dict operations *)

Lemma graph_get_append (graph : Graph) (p n q : Point) :
  graph_get (graph_append graph p n) q =
  if decide (p = q) then graph_get graph p ++ [n] else graph_get graph q.
Proof.
  induction graph as [|[k ns] rest IH]; simpl.
  - by destruct (decide (p = q)).
  - destruct (decide (k = p)) as [->|Hkp]; simpl.
    + by destruct (decide (p = q)).
    + rewrite IH. by destruct (decide (k = q)), (decide (p = q)); simplify_eq.
Qed.

Lemma graph_keys_append (graph : Graph) (p n : Point) :
  (graph_append graph p n).*1 =
  if decide (p ∈ graph.*1) then graph.*1 else graph.*1 ++ [p].
Proof.
  induction graph as [|[k ns] rest IH]; [done|].
  cbn [graph_append]. destruct (decide (k = p)) as [->|Hne]; csimpl.
  - rewrite decide_True; [done | left].
  - rewrite IH. destruct (decide (p ∈ rest.*1)).
    + rewrite decide_True; [done | by right].
    + rewrite decide_False; [done | set_solver].
Qed.

Lemma graph_get_key (graph : Graph) (p : Point) :
  graph_get graph p ≠ [] → p ∈ graph.*1.
Proof.
  induction graph as [|[k ns] rest IH]; simpl; [done|].
  case_decide; set_solver.
Qed.

Lemma graph_get_item (graph : Graph) (p : Point) (ns : list Point) :
  NoDup graph.*1 → (p, ns) ∈ graph → graph_get graph p = ns.
Proof.
  induction graph as [|[k ks] rest IH]; simpl; intros Hnd Hin.
  - by apply elem_of_nil in Hin.
  - apply NoDup_cons in Hnd as [Hk Hnd].
    apply elem_of_cons in Hin as [Heq|Hin].
    + simplify_eq. by rewrite decide_True.
    + case_decide; [|by apply IH].
      subst. exfalso. apply Hk. apply list_elem_of_fmap. by exists (p, ns).
Qed.

Lemma graph_item_get (graph : Graph) (p : Point) :
  p ∈ graph.*1 → (p, graph_get graph p) ∈ graph.
Proof.
  induction graph as [|[k ks] rest IH]; simpl; intros Hin.
  - by apply elem_of_nil in Hin.
  - case_decide; subst; [left|].
    right. apply IH. set_solver.
Qed.

Lemma graph_edges_get (graph : Graph) (p n : Point) :
  n ∈ graph_get graph p → get_edge_key p n ∈ graph_edges graph.
Proof.
  intros Hn. unfold graph_edges. apply list_elem_of_bind.
  exists (p, graph_get graph p). split.
  - simpl. apply list_elem_of_fmap. by exists n.
  - apply graph_item_get, graph_get_key. by destruct (graph_get graph p); [apply elem_of_nil in Hn|].
Qed.

Lemma graph_edges_inv (graph : Graph) (e : Edge) :
  NoDup graph.*1 → e ∈ graph_edges graph →
  ∃ p n, p ∈ graph.*1 ∧ n ∈ graph_get graph p ∧ e = get_edge_key p n.
Proof.
  intros Hnd He. unfold graph_edges in He.
  apply list_elem_of_bind in He as ([p ns] & He & Hitem). simpl in He.
  apply list_elem_of_fmap in He as (n & -> & Hn).
  exists p, n. rewrite (graph_get_item _ _ _ Hnd Hitem).
  split; [|done]. apply list_elem_of_fmap. by exists (p, ns).
Qed.

(** ** What [build_graph] builds *)

Lemma graph_get_add_line (graph : Graph) (line : Line) (p : Point) :
  graph_get (add_line graph line) p =
  graph_get graph p ++ (usable_segments [line] ≫= segment_neighbors p).
Proof.
  unfold add_line, usable_segments, segment_neighbors.
  destruct (line_points line) as [s e] eqn:Hpts.
  cbn [fmap list_fmap]. rewrite Hpts, filter_cons. cbn [fst snd filter list_filter].
  destruct (decide (s = e)) as [->|Hne].
  - rewrite decide_False by (intros ?; done). by rewrite app_nil_r.
  - rewrite decide_True by done. csimpl.
    rewrite !graph_get_append.
    destruct (decide (e = p)) as [->|Hep], (decide (s = p)) as [->|Hsp];
      try done; simpl; rewrite ?app_nil_r; done.
Qed.

Lemma graph_get_foldl (lines : list Line) (graph : Graph) (p : Point) :
  graph_get (foldl add_line graph lines) p =
  graph_get graph p ++ (usable_segments lines ≫= segment_neighbors p).
Proof.
  revert graph. induction lines as [|line lines IH]; intros graph.
  - by rewrite app_nil_r.
  - cbn [foldl]. rewrite IH, graph_get_add_line, <- app_assoc. f_equal.
    unfold usable_segments. cbn [fmap list_fmap].
    rewrite !filter_cons, filter_nil.
    by destruct (decide _); csimpl; rewrite ?app_nil_r.
Qed.

Lemma graph_get_build (lines : list Line) (p : Point) :
  graph_get (build_graph lines) p =
  usable_segments lines ≫= segment_neighbors p.
Proof. unfold build_graph. by rewrite graph_get_foldl. Qed.

Lemma elem_of_segment_neighbors (p n : Point) (s : Point * Point) :
  n ∈ segment_neighbors p s ↔ (s = (p, n) ∨ s = (n, p)).
Proof.
  destruct s as [a b]. unfold segment_neighbors. simpl.
  repeat case_decide; set_solver.
Qed.

Lemma elem_of_graph_get_build (lines : list Line) (p n : Point) :
  n ∈ graph_get (build_graph lines) p ↔
  p ≠ n ∧ ((p, n) ∈ line_points <$> lines ∨ (n, p) ∈ line_points <$> lines).
Proof.
  rewrite graph_get_build, list_elem_of_bind. unfold usable_segments.
  split.
  - intros (s & Hn & Hs). apply list_elem_of_filter in Hs as [Hne Hs].
    apply elem_of_segment_neighbors in Hn as [->| ->]; simpl in Hne; split; auto.
  - intros [Hne [Hs|Hs]].
    + exists (p, n). rewrite elem_of_segment_neighbors, list_elem_of_filter. auto.
    + exists (n, p). rewrite elem_of_segment_neighbors, list_elem_of_filter. auto.
Qed.

Lemma build_graph_symmetric (lines : list Line) (p n : Point) :
  n ∈ graph_get (build_graph lines) p → p ∈ graph_get (build_graph lines) n.
Proof. rewrite !elem_of_graph_get_build. naive_solver. Qed.

Lemma build_graph_irreflexive (lines : list Line) (p : Point) :
  p ∉ graph_get (build_graph lines) p.
Proof. rewrite elem_of_graph_get_build. naive_solver. Qed.

Lemma graph_append_NoDup (graph : Graph) (p n : Point) :
  NoDup graph.*1 → NoDup (graph_append graph p n).*1.
Proof.
  intros Hnd. rewrite graph_keys_append. case_decide; [done|].
  apply NoDup_app. split_and!; [done| |apply NoDup_singleton].
  intros x Hx Hp. apply list_elem_of_singleton in Hp. by subst.
Qed.

Lemma build_graph_NoDup (lines : list Line) : NoDup (build_graph lines).*1.
Proof.
  unfold build_graph. generalize (NoDup_nil_2 (A:=Point)).
  change (@nil Point) with (([] : Graph).*1).
  generalize ([] : Graph). induction lines as [|line lines IH]; intros g Hg; [done|].
  cbn [foldl]. apply IH. unfold add_line.
  destruct (line_points line) as [s e]. case_decide; [done|].
  by do 2 apply graph_append_NoDup.
Qed.

Lemma build_graph_closed (lines : list Line) : graph_closed (build_graph lines).
Proof.
  apply Forall_forall. intros [p ns] Hitem. apply Forall_forall. intros n Hn.
  rewrite <- (graph_get_item _ _ _ (build_graph_NoDup lines) Hitem) in Hn.
  apply graph_get_key.
  apply build_graph_symmetric in Hn. intros Hnil. rewrite Hnil in Hn.
  by apply elem_of_nil in Hn.
Qed.

(** ** The degree classes *)

Lemma classify_foldl (graph : Graph) (acc : gset Point * gset Point) (p : Point) :
  (p ∈ (foldl classify acc graph).1 ↔
     p ∈ acc.1 ∨ ∃ ns, (p, ns) ∈ graph ∧ length ns = 1%nat) ∧
  (p ∈ (foldl classify acc graph).2 ↔
     p ∈ acc.2 ∨ ∃ ns, (p, ns) ∈ graph ∧ (3 ≤ length ns)%nat).
Proof.
  revert acc. induction graph as [|[k ks] rest IH]; intros acc.
  - cbn [foldl]. split; (split; [auto|intros [?|(? & Hin & _)]; [done|by apply elem_of_nil in Hin]]).
  - cbn [foldl]. destruct (IH (classify acc (k, ks))) as [IH1 IH2].
    rewrite IH1, IH2. unfold classify. cbn [fst snd].
    setoid_rewrite elem_of_cons.
    destruct (decide (length ks = 1%nat)); [|destruct (decide (3 ≤ length ks)%nat)];
      cbn [fst snd]; rewrite ?elem_of_union, ?elem_of_singleton;
      split; naive_solver lia.
Qed.

Lemma elem_of_endpoints (graph : Graph) (p : Point) :
  NoDup graph.*1 →
  p ∈ (find_endpoints_and_junctions graph).1 ↔
  p ∈ graph.*1 ∧ length (graph_get graph p) = 1%nat.
Proof.
  intros Hnd. unfold find_endpoints_and_junctions.
  rewrite (proj1 (classify_foldl graph (∅, ∅) p)). cbn [fst]. split.
  - intros [Hin|(ns & Hin & Hlen)]; [set_solver|].
    rewrite (graph_get_item _ _ _ Hnd Hin). split; [|done].
    apply list_elem_of_fmap. by exists (p, ns).
  - intros [Hin Hlen]. right. exists (graph_get graph p).
    split; [by apply graph_item_get | done].
Qed.

Lemma elem_of_junctions (graph : Graph) (p : Point) :
  NoDup graph.*1 →
  p ∈ (find_endpoints_and_junctions graph).2 ↔
  p ∈ graph.*1 ∧ (3 ≤ length (graph_get graph p))%nat.
Proof.
  intros Hnd. unfold find_endpoints_and_junctions.
  rewrite (proj2 (classify_foldl graph (∅, ∅) p)). cbn [snd]. split.
  - intros [Hin|(ns & Hin & Hlen)]; [set_solver|].
    rewrite (graph_get_item _ _ _ Hnd Hin). split; [|done].
    apply list_elem_of_fmap. by exists (p, ns).
  - intros [Hin Hlen]. right. exists (graph_get graph p).
    split; [by apply graph_item_get | done].
Qed.

(** ** One trace *)

Lemma first_unvisited_Some (cur : Point) (ns : list Point) (vis : gset Edge) (n : Point) :
  first_unvisited cur ns vis = Some n → n ∈ ns ∧ get_edge_key cur n ∉ vis.
Proof.
  induction ns as [|m ns IH]; simpl; [done|].
  case_decide; [set_solver|]. intros [= ->]. split; [left | done].
Qed.

Lemma first_unvisited_None (cur : Point) (ns : list Point) (vis : gset Edge) :
  first_unvisited cur ns vis = None → ∀ n, n ∈ ns → get_edge_key cur n ∈ vis.
Proof.
  induction ns as [|m ns IH]; simpl; intros Hnone n Hn.
  - by apply elem_of_nil in Hn.
  - case_decide; [|done]. apply elem_of_cons in Hn as [->|Hn]; auto.
Qed.

Lemma first_unvisited_skip (cur : Point) (seen rest : list Point)
    (vis : gset Edge) (n : Point) :
  (∀ m, m ∈ seen → get_edge_key cur m ∈ vis) →
  get_edge_key cur n ∉ vis →
  first_unvisited cur (seen ++ n :: rest) vis = Some n.
Proof.
  intros Hseen Hn. induction seen as [|m seen IH]; simpl.
  - by rewrite decide_False.
  - rewrite decide_True by (apply Hseen; left).
    apply IH. intros ??. apply Hseen. by right.
Qed.

Section Trace.
Context (graph : Graph) (endpoints junctions : gset Point).

Lemma trace_loop_traced fuel path current vis path' vis' :
  trace_loop fuel graph endpoints junctions path current vis = Some (path', vis') →
  ∃ ext, path' = path ++ ext ∧ traced graph endpoints junctions current vis ext vis'.
Proof.
  revert path current vis. induction fuel as [|fuel IH]; intros path current vis; [done|].
  cbn [trace_loop].
  destruct (first_unvisited _ _ _) as [next_point|] eqn:Hnext.
  - case_decide as Hb.
    + intros [= <- <-]. exists [next_point]. split; [done|]. by constructor.
    + intros Hrec. apply IH in Hrec as (ext & -> & Htr).
      exists (next_point :: ext). rewrite <- app_assoc. split; [done|].
      by eapply traced_step.
  - intros [= <- <-]. exists []. rewrite app_nil_r. split; [done|]. by constructor.
Qed.

Lemma trace_loop_enough fuel path current vis :
  (size (list_to_set (graph_edges graph) ∖ vis : gset Edge) < fuel)%nat →
  is_Some (trace_loop fuel graph endpoints junctions path current vis).
Proof.
  revert path current vis. induction fuel as [|fuel IH]; intros path current vis Hsz; [lia|].
  cbn [trace_loop].
  destruct (first_unvisited _ _ _) as [next_point|] eqn:Hnext; [|done].
  case_decide; [done|]. apply IH.
  apply first_unvisited_Some in Hnext as [Hin Hnew].
  apply graph_edges_get in Hin.
  eapply Nat.lt_le_trans; [|apply Nat.lt_succ_r, Hsz].
  apply subset_size. split; [set_solver|]. intros Hsub.
  assert (get_edge_key current next_point ∈
          (list_to_set (graph_edges graph) ∖ vis : gset Edge)) as Hk.
  { apply elem_of_difference. by rewrite elem_of_list_to_set. }
  apply Hsub in Hk. set_solver.
Qed.

Lemma trace_loop_more_fuel fuel fuel' path current vis r :
  trace_loop fuel graph endpoints junctions path current vis = Some r →
  (fuel ≤ fuel')%nat →
  trace_loop fuel' graph endpoints junctions path current vis = Some r.
Proof.
  revert fuel' path current vis.
  induction fuel as [|fuel IH]; intros fuel' path current vis; [done|].
  destruct fuel' as [|fuel']; [lia|]. cbn [trace_loop].
  destruct (first_unvisited _ _ _); [|done].
  case_decide; [done|]. intros Hr Hle. apply IH; [done | lia].
Qed.

Lemma traced_spec current vis ext vis' :
  traced graph endpoints junctions current vis ext vis' →
  vis' = list_to_set (polyline_edges (current :: ext)) ∪ vis ∧
  NoDup (polyline_edges (current :: ext)) ∧
  (∀ e, e ∈ polyline_edges (current :: ext) → e ∉ vis) ∧
  adjacent graph (current :: ext) ∧
  Forall (pass_through endpoints junctions) (removelast ext).
Proof.
  induction 1 as [cur vis Hnone|cur vis n Hn Hb|cur vis n ext vis' Hn Hb Htr IH].
  - split_and!; [set_solver|constructor|set_solver|done|done].
  - apply first_unvisited_Some in Hn as [Hin Hnew].
    split_and!; [set_solver|apply NoDup_singleton|set_solver|done|done].
  - apply first_unvisited_Some in Hn as [Hin Hnew].
    destruct IH as (-> & Hnd & Hfresh & Hadj & Hint).
    cbn [polyline_edges adjacent]. split_and!.
    + set_solver.
    + apply NoDup_cons. split; [|done]. intros He. apply Hfresh in He. set_solver.
    + intros e He. apply elem_of_cons in He as [->|He]; [done|].
      apply Hfresh in He. set_solver.
    + done.
    + done.
    + destruct ext as [|m ext]; [done|].
      change (removelast (n :: m :: ext)) with (n :: removelast (m :: ext)).
      constructor; [|done]. split; intros ?; apply Hb; auto.
Qed.

Lemma adjacent_graph_edges path e :
  adjacent graph path → e ∈ polyline_edges path → e ∈ graph_edges graph.
Proof.
  revert e. induction path as [|p [|q path] IH]; intros e; cbn [adjacent polyline_edges];
    [set_solver..|].
  intros [Hq Hadj] He. apply elem_of_cons in He as [->|He]; [|by apply IH].
  by apply graph_edges_get.
Qed.

Lemma traced_first current vis ext vis' n :
  traced graph endpoints junctions current vis ext vis' →
  first_unvisited current (graph_get graph current) vis = Some n →
  get_edge_key current n ∈ vis'.
Proof.
  intros Htr Hn. inversion Htr as [? ? Hnone|? ? m Hm Hb|? ? m ext' ? Hm Hb Htr']; subst.
  - congruence.
  - rewrite Hn in Hm. simplify_eq. set_solver.
  - rewrite Hn in Hm. simplify_eq.
    apply traced_spec in Htr' as (-> & _). set_solver.
Qed.

Lemma size_list_to_set_le (l : list Edge) :
  (size (list_to_set l : gset Edge) ≤ length l)%nat.
Proof.
  induction l as [|e l IH]; [done|].
  rewrite list_to_set_cons, size_union_alt, size_singleton. simpl.
  assert (size (list_to_set l ∖ {[e]} : gset Edge) ≤ size (list_to_set l : gset Edge))%nat
    by (apply subseteq_size; set_solver).
  lia.
Qed.

(** [trace_path] always returns, and what it returns is a trace. *)
Lemma trace_path_traced start vis :
  ∃ ext vis',
    trace_path start graph vis endpoints junctions = Some (start :: ext, vis') ∧
    traced graph endpoints junctions start vis ext vis'.
Proof.
  unfold trace_path.
  destruct (trace_loop_enough (trace_fuel graph) [start] start vis) as [[path vis'] Hrun].
  - unfold trace_fuel. apply Nat.lt_succ_r.
    etrans; [|apply size_list_to_set_le]. apply subseteq_size. set_solver.
  - rewrite Hrun. apply trace_loop_traced in Hrun as (ext & -> & Htr).
    by exists ext, vis'.
Qed.
End Trace.

(** ** The invariant of the extraction *)

Lemma polylines_edges_snoc (polylines : list Polyline) (path : Polyline) :
  polylines_edges (polylines ++ [path]) =
  polylines_edges polylines ++ polyline_edges path.
Proof. unfold polylines_edges. by rewrite bind_app, bind_singleton. Qed.

Section Sweep.
Context (graph : Graph) (endpoints junctions : gset Point).

Lemma state_ok_init : state_ok graph endpoints junctions (∅, []).
Proof. split; [constructor | set_solver | constructor]. Qed.

Lemma state_ok_traced start vis polylines ext vis' :
  state_ok graph endpoints junctions (vis, polylines) →
  traced graph endpoints junctions start vis ext vis' →
  state_ok graph endpoints junctions
    (vis', if decide (2 ≤ length (start :: ext))%nat
           then polylines ++ [start :: ext] else polylines).
Proof.
  intros [Hnd Hvis Hpaths] Htr. cbn [fst snd] in *.
  apply traced_spec in Htr as (-> & Hnd' & Hfresh & Hadj & Hint).
  destruct ext as [|n ext].
  - rewrite decide_False by (simpl; lia).
    split; cbn [fst snd]; [done| |done]. intros e. rewrite <- Hvis. set_solver.
  - rewrite decide_True by (simpl; lia).
    split; cbn [fst snd].
    + rewrite polylines_edges_snoc. apply NoDup_app. split_and!; [done| |done].
      intros e He He'. apply Hfresh in He'. by apply Hvis in He.
    + intros e. rewrite polylines_edges_snoc, elem_of_app, <- Hvis.
      rewrite elem_of_union, elem_of_list_to_set. tauto.
    + apply Forall_app. split; [done|]. apply Forall_singleton.
      split; [done|done|simpl; lia].
Qed.

Lemma state_ok_graph_edges st e :
  state_ok graph endpoints junctions st → e ∈ st.1 → e ∈ graph_edges graph.
Proof.
  intros [_ Hvis Hpaths] He. apply Hvis in He.
  apply list_elem_of_bind in He as (path & He & Hpath).
  eapply Forall_forall in Hpaths; [|done].
  eapply adjacent_graph_edges; [apply Hpaths | done].
Qed.

Lemma sweep_neighbors_spec point rest :
  ∀ seen st,
    graph_get graph point = seen ++ rest →
    (∀ n, n ∈ seen → get_edge_key point n ∈ st.1) →
    state_ok graph endpoints junctions st →
    ∃ st', sweep_neighbors graph endpoints junctions point rest st = Some st' ∧
           state_ok graph endpoints junctions st' ∧
           st.1 ⊆ st'.1 ∧
           ∀ n, n ∈ graph_get graph point → get_edge_key point n ∈ st'.1.
Proof.
  induction rest as [|neighbor rest IH]; intros seen st Hget Hseen Hok.
  - exists st. rewrite app_nil_r in Hget. rewrite Hget. by split_and!.
  - cbn [sweep_neighbors]. destruct (decide (get_edge_key point neighbor ∈ st.1)) as [Hin|Hnew].
    + apply (IH (seen ++ [neighbor])); [by rewrite <- app_assoc| |done].
      intros n Hn. apply elem_of_app in Hn as [Hn|Hn]; [by apply Hseen|].
      apply list_elem_of_singleton in Hn. by subst.
    + destruct (trace_path_traced graph endpoints junctions point st.1)
        as (ext & vis' & -> & Htr). cbn.
      pose proof (first_unvisited_skip point seen rest st.1 neighbor Hseen Hnew) as Hfirst.
      rewrite <- Hget in Hfirst.
      pose proof (traced_first _ _ _ _ _ _ _ _ Htr Hfirst) as Hcovered.
      pose proof (proj1 (traced_spec _ _ _ _ _ _ _ Htr)) as Hvis'.
      destruct st as [vis polylines]. cbn [fst snd] in *.
      destruct (IH (seen ++ [neighbor])
                  (vis', if decide (2 ≤ length (point :: ext))%nat
                         then polylines ++ [point :: ext] else polylines))
        as (st' & Hrun & Hok' & Hsub & Hall).
      * by rewrite <- app_assoc.
      * intros n Hn. cbn [fst].
        apply elem_of_app in Hn as [Hn|Hn].
        -- rewrite Hvis'. apply elem_of_union_r. by apply Hseen.
        -- apply list_elem_of_singleton in Hn. by subst.
      * by apply (state_ok_traced point vis).
      * exists st'. split_and!; [done|done| |done].
        etrans; [|exact Hsub]. cbn [fst]. rewrite Hvis'. set_solver.
Qed.

Lemma sweep_points_spec points :
  ∀ st,
    state_ok graph endpoints junctions st →
    ∃ st', sweep_points graph endpoints junctions points st = Some st' ∧
           state_ok graph endpoints junctions st' ∧
           st.1 ⊆ st'.1 ∧
           ∀ p n, p ∈ points → n ∈ graph_get graph p → get_edge_key p n ∈ st'.1.
Proof.
  induction points as [|point points IH]; intros st Hok.
  - exists st. split_and!; [done..|]. intros p n Hp. by apply elem_of_nil in Hp.
  - cbn [sweep_points].
    destruct (sweep_neighbors_spec point (graph_get graph point) [] st)
      as (st1 & -> & Hok1 & Hsub1 & Hall1); [done|set_solver|done|].
    cbn. destruct (IH st1 Hok1) as (st' & Hrun & Hok' & Hsub & Hall).
    exists st'. split_and!; [done|done|set_solver|].
    intros p n Hp Hn. apply elem_of_cons in Hp as [->|Hp]; [|by eapply Hall].
    apply Hsub, Hall1, Hn.
Qed.
End Sweep.

Section Phases.
Context (set_order : gset Point → list Point) (graph : Graph).

(** The three phases run to the end, keep the invariant, and after
    the third every neighbour entry of every key is visited. *)
Lemma phase3_spec :
  ∃ st, phase3 set_order graph = Some st ∧
        state_ok graph (find_endpoints_and_junctions graph).1
          (find_endpoints_and_junctions graph).2 st ∧
        ∀ p n, p ∈ graph.*1 → n ∈ graph_get graph p → get_edge_key p n ∈ st.1.
Proof.
  unfold phase3, phase2, phase1.
  destruct (find_endpoints_and_junctions graph) as [endpoints junctions]. cbn [fst snd].
  destruct (sweep_points_spec graph endpoints junctions (set_order endpoints) (∅, []))
    as (st1 & -> & Hok1 & _); [apply state_ok_init|]. cbn.
  destruct (sweep_points_spec graph endpoints junctions (set_order junctions) st1)
    as (st2 & -> & Hok2 & _); [done|]. cbn.
  destruct (sweep_points_spec graph endpoints junctions graph.*1 st2)
    as (st3 & -> & Hok3 & _ & Hall); [done|].
  by exists st3.
Qed.
End Phases.

(** ** Paths and indices *)

Lemma adjacent_lookup (graph : Graph) (path : Polyline) (i : nat) (p q : Point) :
  adjacent graph path → path !! i = Some p → path !! S i = Some q →
  q ∈ graph_get graph p.
Proof.
  revert i. induction path as [|a [|b path] IH]; intros i Hadj Hp Hq; [done..|].
  destruct Hadj as [Hb Hadj]. destruct i as [|i].
  - simpl in Hp, Hq. by simplify_eq.
  - by apply (IH i).
Qed.

Lemma removelast_lookup (l : Polyline) (i : nat) (p : Point) :
  l !! i = Some p → (S i < length l)%nat → removelast l !! i = Some p.
Proof.
  revert i. induction l as [|a [|b l] IH]; intros i Hp Hlen; [done| simpl in *; lia |].
  change (removelast (a :: b :: l)) with (a :: removelast (b :: l)).
  destruct i as [|i]; [done|]. apply IH; [done | simpl in *; lia].
Qed.

Lemma interior_lookup (path : Polyline) (i : nat) (p : Point) :
  path !! i = Some p → (0 < i)%nat → (S i < length path)%nat → p ∈ interior path.
Proof.
  intros Hp Hi Hlen. destruct path as [|a path]; [done|]. destruct i as [|i]; [lia|].
  unfold interior. cbn [tail]. eapply list_elem_of_lookup_2.
  apply removelast_lookup; [done | simpl in Hlen; lia].
Qed.

Lemma polyline_edges_lookup (path : Polyline) (e : Edge) :
  e ∈ polyline_edges path ↔
  ∃ i p q, path !! i = Some p ∧ path !! S i = Some q ∧ e = get_edge_key p q.
Proof.
  induction path as [|a [|b path] IH].
  - split; [intros H; by apply elem_of_nil in H | by intros (i & p & q & ? & _)].
  - split; [intros H; by apply elem_of_nil in H | by intros ([|i] & p & q & ? & ? & _)].
  - cbn [polyline_edges]. rewrite elem_of_cons, IH. split.
    + intros [->|(i & p & q & Hp & Hq & ->)]; [by exists 0%nat, a, b|].
      by exists (S i), p, q.
    + intros ([|i] & p & q & Hp & Hq & ->).
      * left. simpl in Hp, Hq. by simplify_eq.
      * right. by exists i, p, q.
Qed.

Lemma NoDup_bind_disjoint {A B} (f : A → list B) (l : list A) (i j : nat) (a b : A) (x : B) :
  NoDup (l ≫= f) → i ≠ j → l !! i = Some a → l !! j = Some b →
  x ∈ f a → x ∉ f b.
Proof.
  revert i j. induction l as [|c l IH]; intros i j Hnd Hij Hi Hj Ha Hb; [done|].
  rewrite bind_cons in Hnd. apply NoDup_app in Hnd as (_ & Hdisj & Hnd).
  destruct i as [|i], j as [|j]; [done| | |]; simpl in Hi, Hj; simplify_eq.
  - apply (Hdisj x Ha). apply list_elem_of_bind. exists b.
    split; [done | by eapply list_elem_of_lookup_2].
  - apply (Hdisj x Hb). apply list_elem_of_bind. exists a.
    split; [done | by eapply list_elem_of_lookup_2].
  - eapply (IH i j); eauto.
Qed.

(** ** The result of the extraction *)

Section Result.
Context (set_order : gset Point → list Point).

(** On a dict, the extraction returns; the edges drawn are the edge
    keys of the graph, each drawn once; every path is a walk of the
    graph whose interior avoids the endpoints and the junctions. *)
Lemma extract_polylines_spec (graph : Graph) :
  NoDup graph.*1 →
  ∃ visited polylines,
    phase3 set_order graph = Some (visited, polylines) ∧
    extract_polylines set_order graph = Some polylines ∧
    NoDup (polylines_edges polylines) ∧
    (∀ e, e ∈ visited ↔ e ∈ polylines_edges polylines) ∧
    (∀ e, e ∈ polylines_edges polylines ↔ e ∈ graph_edges graph) ∧
    Forall (path_ok graph (find_endpoints_and_junctions graph).1
              (find_endpoints_and_junctions graph).2) polylines.
Proof.
  intros Hkeys.
  destruct (phase3_spec set_order graph) as ([visited polylines] & Hrun & Hok & Hall).
  exists visited, polylines. unfold extract_polylines. rewrite Hrun.
  pose proof Hok as [Hnd Hvis Hpaths]. cbn [fst snd] in *.
  split_and!; [done..| |done].
  intros e. split.
  - intros He. apply Hvis in He. by apply (state_ok_graph_edges _ _ _ _ _ Hok).
  - intros He. apply graph_edges_inv in He as (p & n & Hp & Hn & ->); [|done].
    apply Hvis. by apply Hall.
Qed.

(** C1: the edges of the polylines [extract_polylines] returns for the
    graph built from any segment list are exactly the edges of that
    graph: none is missing, none is drawn twice, and no two distinct
    polylines share one. *)
Theorem edge_coverage (lines : list Line) :
  ∃ polylines,
    extract_polylines set_order (build_graph lines) = Some polylines ∧
    (∀ e, e ∈ polylines_edges polylines ↔ e ∈ graph_edges (build_graph lines)) ∧
    NoDup (polylines_edges polylines) ∧
    (∀ i j path1 path2 e,
       i ≠ j → polylines !! i = Some path1 → polylines !! j = Some path2 →
       e ∈ polyline_edges path1 → e ∉ polyline_edges path2).
Proof.
  destruct (extract_polylines_spec (build_graph lines) (build_graph_NoDup lines))
    as (visited & polylines & _ & Hrun & Hnd & _ & Hcover & _).
  exists polylines. split_and!; [done..|].
  intros i j path1 path2 e. by apply NoDup_bind_disjoint.
Qed.

(** C2: on every graph (a dict all of whose neighbours are keys) each
    call of [trace_path] returns, [extract_polylines] returns, and when
    it does, after the third phase, every edge key of the graph is in
    the visited set. *)
Theorem extraction_terminates_all_visited (graph : Graph) :
  NoDup graph.*1 → graph_closed graph →
  (∀ start visited endpoints junctions,
     is_Some (trace_path start graph visited endpoints junctions)) ∧
  ∃ visited polylines,
    phase3 set_order graph = Some (visited, polylines) ∧
    extract_polylines set_order graph = Some polylines ∧
    ∀ e, e ∈ graph_edges graph → e ∈ visited.
Proof.
  intros Hkeys _. split.
  - intros start visited endpoints junctions.
    destruct (trace_path_traced graph endpoints junctions start visited)
      as (ext & vis' & -> & _). by eexists.
  - destruct (extract_polylines_spec graph Hkeys)
      as (visited & polylines & Hrun & Hret & _ & Hvis & Hcover & _).
    exists visited, polylines. split_and!; [done..|].
    intros e He. by apply Hvis, Hcover.
Qed.

(** C5: in every polyline [extract_polylines] returns, a point that is
    not one of the two ends of the path has degree 2 in the graph and is
    neither an endpoint nor a junction. *)
Theorem degree_boundary (lines : list Line) :
  ∃ polylines,
    extract_polylines set_order (build_graph lines) = Some polylines ∧
    ∀ path i p,
      path ∈ polylines → path !! i = Some p →
      (0 < i)%nat → (S i < length path)%nat →
      length (graph_get (build_graph lines) p) = 2%nat ∧
      (p ∉ (find_endpoints_and_junctions (build_graph lines)).1) ∧
      (p ∉ (find_endpoints_and_junctions (build_graph lines)).2).
Proof.
  pose proof (build_graph_NoDup lines) as Hkeys.
  destruct (extract_polylines_spec (build_graph lines) Hkeys)
    as (visited & polylines & _ & Hrun & _ & _ & _ & Hpaths).
  exists polylines. split; [done|].
  intros path i p Hpath Hp Hi Hlen.
  eapply Forall_forall in Hpaths as [Hadj Hint _]; [|done].
  eapply Forall_forall in Hint as [HE HJ]; [|by eapply interior_lookup].
  split; [|done].
  destruct i as [|i]; [lia|].
  destruct (lookup_lt_is_Some_2 path i) as [q Hq]; [lia|].
  pose proof (adjacent_lookup _ _ _ _ _ Hadj Hq Hp) as Hnb.
  apply build_graph_symmetric in Hnb.
  assert (p ∈ (build_graph lines).*1) as Hkey.
  { apply graph_get_key. intros Hnil. rewrite Hnil in Hnb. by apply elem_of_nil in Hnb. }
  rewrite elem_of_endpoints in HE by done. rewrite elem_of_junctions in HJ by done.
  destruct (graph_get (build_graph lines) p) as [|? [|? [|? ?]]] eqn:Hget; simpl in *.
  - by apply elem_of_nil in Hnb.
  - exfalso. apply HE. auto.
  - done.
  - exfalso. apply HJ. split; [done | lia].
Qed.
End Result.

Lemma extraction_terminates_all_visited_witness :
  ∃ visited polylines,
    phase3 elements (build_graph junction_lines) = Some (visited, polylines) ∧
    extract_polylines elements (build_graph junction_lines) = Some polylines ∧
    ∀ e, e ∈ graph_edges (build_graph junction_lines) → e ∈ visited.
Proof.
  apply (extraction_terminates_all_visited elements (build_graph junction_lines)).
  - apply (bool_decide_unpack _). by vm_compute.
  - apply (bool_decide_unpack _). by vm_compute.
Defined.

(** C2 on the graphs the program builds: they meet both hypotheses. *)
Corollary extraction_of_built_graph (set_order : gset Point → list Point)
    (lines : list Line) :
  ∃ visited polylines,
    phase3 set_order (build_graph lines) = Some (visited, polylines) ∧
    extract_polylines set_order (build_graph lines) = Some polylines ∧
    ∀ e, e ∈ graph_edges (build_graph lines) → e ∈ visited.
Proof.
  destruct (extract_polylines_spec set_order (build_graph lines) (build_graph_NoDup lines))
    as (visited & polylines & Hrun & Hret & _ & Hvis & Hcover & _).
  exists visited, polylines. split_and!; [done..|].
  intros e He. by apply Hvis, Hcover.
Qed.

(** ** Multiplicities *)

Lemma occurrences_app {A} `{EqDecision A} (x : A) (l k : list A) :
  occurrences x (l ++ k) = (occurrences x l + occurrences x k)%nat.
Proof. unfold occurrences. by rewrite filter_app, length_app. Qed.

Lemma occurrences_bind {A B} `{EqDecision B} (x y : B) (f g : A → list B) (l : list A) :
  (∀ a, occurrences x (f a) = occurrences y (g a)) →
  occurrences x (l ≫= f) = occurrences y (l ≫= g).
Proof.
  intros Hfg. induction l as [|a l IH]; [done|].
  by rewrite !bind_cons, !occurrences_app, Hfg, IH.
Qed.

Lemma occurrences_NoDup {A} `{EqDecision A} (x : A) (l : list A) :
  NoDup l → x ∈ l → occurrences x l = 1%nat.
Proof.
  unfold occurrences. induction 1 as [|y l Hy Hnd IH]; intros Hx.
  - by apply elem_of_nil in Hx.
  - rewrite filter_cons. destruct (decide (x = y)) as [->|Hne].
    + simpl. f_equal. apply length_zero_iff_nil.
      apply elem_of_nil_inv. intros z Hz. apply list_elem_of_filter in Hz as [<- Hz]. done.
    + apply IH. by apply elem_of_cons in Hx as [?|?].
Qed.

Lemma occurrences_segment_neighbors (a b : Point) (s : Point * Point) :
  occurrences b (segment_neighbors a s) = occurrences a (segment_neighbors b s).
Proof.
  destruct s as [u v]. unfold occurrences, segment_neighbors. cbn [fst snd].
  rewrite !filter_app, !length_app.
  destruct (decide (u = a)), (decide (v = a)), (decide (u = b)), (decide (v = b));
    simplify_eq; rewrite ?filter_cons, ?filter_nil;
    repeat (case_decide; simplify_eq); simpl; try done; try lia.
Qed.

Section Multigraph.
Context (set_order : gset Point → list Point).

(** C10: [build_graph] returns an undirected multigraph without
    self-loops: B is in A's neighbour list as often as A is in B's, no
    point is its own neighbour, and (the extraction only reads the
    graph) consecutive points of every polyline returned are distinct. *)
Theorem build_graph_undirected_no_self_loop (lines : list Line) :
  (∀ a b, occurrences b (graph_get (build_graph lines) a) =
          occurrences a (graph_get (build_graph lines) b)) ∧
  (∀ a, a ∉ graph_get (build_graph lines) a) ∧
  ∃ polylines,
    extract_polylines set_order (build_graph lines) = Some polylines ∧
    ∀ path i p q,
      path ∈ polylines → path !! i = Some p → path !! S i = Some q → p ≠ q.
Proof.
  split_and!.
  - intros a b. rewrite !graph_get_build.
    apply occurrences_bind, occurrences_segment_neighbors.
  - apply build_graph_irreflexive.
  - destruct (extract_polylines_spec set_order (build_graph lines) (build_graph_NoDup lines))
      as (visited & polylines & _ & Hrun & _ & _ & _ & Hpaths).
    exists polylines. split; [done|].
    intros path i p q Hpath Hp Hq ->.
    eapply Forall_forall in Hpaths as [Hadj _ _]; [|done].
    apply (build_graph_irreflexive lines q).
    exact (adjacent_lookup _ _ _ _ _ Hadj Hp Hq).
Qed.
End Multigraph.

(** ** Segments, keys and degrees *)

Lemma usable_segments_distinct (lines : list Line) :
  Forall (λ s, s.1 ≠ s.2) (usable_segments lines).
Proof. apply Forall_forall. intros s Hs. by apply list_elem_of_filter in Hs as [? _]. Qed.

Lemma usable_segments_app (l k : list Line) :
  usable_segments (l ++ k) = usable_segments l ++ usable_segments k.
Proof. unfold usable_segments. by rewrite fmap_app, filter_app. Qed.

Lemma segment_keys_app (l k : list Line) :
  segment_keys (l ++ k) = segment_keys l ++ segment_keys k.
Proof. unfold segment_keys. by rewrite usable_segments_app, fmap_app. Qed.

Lemma occurrences_neighbors_joins (a b : Point) (segs : list (Point * Point)) :
  Forall (λ s, s.1 ≠ s.2) segs →
  occurrences b (segs ≫= segment_neighbors a) = length (filter (joins a b) segs).
Proof.
  induction 1 as [|[u v] segs Hne _ IH]; [done|]. cbn [fst snd] in Hne.
  rewrite bind_cons, occurrences_app, IH, filter_cons.
  unfold occurrences, segment_neighbors, joins. cbn [fst snd].
  rewrite filter_app, length_app.
  destruct (decide (u = a)), (decide (v = a)); simplify_eq;
    rewrite ?filter_cons, ?filter_nil;
    repeat (case_decide; simplify_eq); simpl; try done; naive_solver.
Qed.

Lemma length_neighbors_touches (p : Point) (segs : list (Point * Point)) :
  Forall (λ s, s.1 ≠ s.2) segs →
  length (segs ≫= segment_neighbors p) = length (filter (touches p) segs).
Proof.
  induction 1 as [|[u v] segs Hne _ IH]; [done|]. cbn [fst snd] in Hne.
  rewrite bind_cons, length_app, IH, filter_cons.
  unfold segment_neighbors, touches. cbn [fst snd].
  destruct (decide (u = p)), (decide (v = p)); simplify_eq;
    repeat (case_decide; simplify_eq); simpl; try done; naive_solver.
Qed.

Lemma touches_edge_key (p u v : Point) :
  touches p (get_edge_key u v) ↔ touches p (u, v).
Proof.
  unfold touches. destruct (get_edge_key_ends u v) as [-> | ->]; cbn [fst snd]; tauto.
Qed.

Lemma degree_segment_keys (lines : list Line) (p : Point) :
  length (graph_get (build_graph lines) p) =
  length (filter (touches p) (segment_keys lines)).
Proof.
  rewrite graph_get_build, length_neighbors_touches by apply usable_segments_distinct.
  unfold segment_keys. induction (usable_segments lines) as [|[u v] segs IH]; [done|].
  rewrite fmap_cons, !filter_cons. cbn [fst snd].
  destruct (decide (touches p (u, v))) as [Ht|Ht].
  - rewrite decide_True by (by apply touches_edge_key). simpl. by rewrite IH.
  - rewrite decide_False by (by rewrite touches_edge_key). done.
Qed.

Lemma elem_of_graph_edges_build (lines : list Line) (e : Edge) :
  e ∈ graph_edges (build_graph lines) ↔ e ∈ segment_keys lines.
Proof.
  unfold segment_keys, usable_segments. rewrite list_elem_of_fmap. split.
  - intros He. apply graph_edges_inv in He as (p & n & _ & Hn & ->);
      [|apply build_graph_NoDup].
    apply elem_of_graph_get_build in Hn as [Hne [Hs|Hs]].
    + exists (p, n). rewrite list_elem_of_filter. auto.
    + exists (n, p). rewrite list_elem_of_filter. cbn [fst snd].
      split; [apply get_edge_key_comm | auto].
  - intros ([u v] & -> & Hs). apply list_elem_of_filter in Hs as [Hne Hs].
    cbn [fst snd] in *. apply graph_edges_get, elem_of_graph_get_build. auto.
Qed.

Lemma edge_key_neighbor (lines : list Line) (a b : Point) :
  get_edge_key a b ∈ graph_edges (build_graph lines) ↔
  b ∈ graph_get (build_graph lines) a.
Proof.
  split; [|apply graph_edges_get].
  intros He. apply graph_edges_inv in He as (p & n & _ & Hn & Hkey);
    [|apply build_graph_NoDup].
  apply get_edge_key_inj in Hkey as [[-> ->]|[-> ->]]; [done|].
  by apply build_graph_symmetric.
Qed.

Lemma occurrences_zero {A} `{EqDecision A} (x : A) (l : list A) :
  x ∉ l → occurrences x l = 0%nat.
Proof.
  intros Hx. unfold occurrences. apply length_zero_iff_nil, elem_of_nil_inv.
  intros y Hy. apply list_elem_of_filter in Hy as [<- Hy]. done.
Qed.

Lemma occurrences_pos {A} `{EqDecision A} (x : A) (l : list A) :
  x ∈ l → (0 < occurrences x l)%nat.
Proof.
  intros Hx. unfold occurrences.
  assert (x ∈ filter (x =.) l) as Hin by (by apply list_elem_of_filter).
  destruct (filter _ l); [by apply elem_of_nil in Hin | simpl; lia].
Qed.

(** ** Retraced segments *)

Section Retraced.
Context (set_order : gset Point → list Point).

(** C3, as amended: every copy of a retraced segment is an entry of its
    own in the neighbour lists and counts in the degree, but the copies
    share one edge key: the edge is drawn once in the output, however
    many copies the input has. *)
Theorem retraced_segments_share_one_key (lines : list Line) (a b : Point) :
  occurrences b (graph_get (build_graph lines) a) =
    length (filter (joins a b) (usable_segments lines)) ∧
  length (graph_get (build_graph lines) a) =
    length (filter (touches a) (usable_segments lines)) ∧
  ∃ polylines,
    extract_polylines set_order (build_graph lines) = Some polylines ∧
    occurrences (get_edge_key a b) (polylines_edges polylines) =
      (1 `min` occurrences b (graph_get (build_graph lines) a))%nat.
Proof.
  split_and!.
  - rewrite graph_get_build.
    apply occurrences_neighbors_joins, usable_segments_distinct.
  - rewrite graph_get_build.
    apply length_neighbors_touches, usable_segments_distinct.
  - destruct (extract_polylines_spec set_order (build_graph lines) (build_graph_NoDup lines))
      as (visited & polylines & _ & Hrun & Hnd & _ & Hcover & _).
    exists polylines. split; [done|].
    destruct (decide (b ∈ graph_get (build_graph lines) a)) as [Hin|Hout].
    + rewrite occurrences_NoDup; [|done|by apply Hcover, edge_key_neighbor].
      apply occurrences_pos in Hin. lia.
    + rewrite (occurrences_zero b) by done.
      rewrite occurrences_zero; [done|].
      intros He. by apply Hcover, edge_key_neighbor in He.
Qed.
End Retraced.

(** C3, as stated, fails: of a segment given twice only one copy is
    drawn, although the neighbour list holds both. *)
Lemma retraced_segment_drawn_once :
  let lines := [seg 0 0 1 0; seg 0 0 1 0] in
  graph_get (build_graph lines) (0, 0) = [(1000000, 0); (1000000, 0)] ∧
  extract_polylines elements (build_graph lines) = Some [[(0, 0); (1000000, 0)]] ∧
  occurrences (get_edge_key (0, 0) (1000000, 0))
    (polylines_edges [[(0, 0); (1000000, 0)]])
  ≠ occurrences (1000000, 0) (graph_get (build_graph lines) (0, 0)).
Proof. vm_compute. split_and!; [done..|]. intros [=]. Qed.

(** ** Running the extraction on its own output *)

Lemma round_ndigits_coord_value (z : Z) : round_ndigits (coord_value z) 6 = z.
Proof.
  unfold round_ndigits, round_half_even, coord_value. cbn [Qmult Qnum Qden inject_Z].
  rewrite Pos.mul_1_r.
  change (10 ^ 6) with 1000000. change (Z.pos (10 ^ 6)) with 1000000.
  rewrite Z.div_mul, Z.mod_mul by lia. done.
Qed.

Lemma line_points_point_vec (p q : Point) :
  line_points (mkLine (point_vec p) (point_vec q)) = (p, q).
Proof.
  destruct p, q. unfold line_points, round_point. cbn [line_start line_end point_vec vx vy fst snd].
  by rewrite !round_ndigits_coord_value.
Qed.

Lemma segment_keys_polyline (lines : list Line) (path : Polyline) :
  adjacent (build_graph lines) path →
  segment_keys (polyline_lines path) = polyline_edges path.
Proof.
  induction path as [|p [|q path] IH]; [done..|].
  intros [Hq Hadj].
  change (polyline_lines (p :: q :: path))
    with (mkLine (point_vec p) (point_vec q) :: polyline_lines (q :: path)).
  change (polyline_edges (p :: q :: path))
    with (get_edge_key p q :: polyline_edges (q :: path)).
  rewrite <- IH by done.
  unfold segment_keys, usable_segments. rewrite fmap_cons, line_points_point_vec.
  rewrite filter_cons, decide_True; [done|]. cbn [fst snd].
  intros ->. by apply build_graph_irreflexive in Hq.
Qed.

Lemma segment_keys_polylines (lines : list Line) (polylines : list Polyline) :
  Forall (λ path, adjacent (build_graph lines) path) polylines →
  segment_keys (polylines_lines polylines) = polylines_edges polylines.
Proof.
  unfold polylines_lines, polylines_edges.
  induction 1 as [|path polylines Hadj _ IH]; [done|].
  by rewrite !bind_cons, segment_keys_app, IH, (segment_keys_polyline lines).
Qed.

Lemma classes_of_degrees (g1 g2 : Graph) :
  NoDup g1.*1 → NoDup g2.*1 →
  (∀ p, p ∈ g1.*1 ↔ graph_get g1 p ≠ []) →
  (∀ p, p ∈ g2.*1 ↔ graph_get g2 p ≠ []) →
  (∀ p, length (graph_get g2 p) = length (graph_get g1 p)) →
  find_endpoints_and_junctions g2 = find_endpoints_and_junctions g1.
Proof.
  intros Hnd1 Hnd2 Hk1 Hk2 Hdeg.
  destruct (find_endpoints_and_junctions g1) as [E1 J1] eqn:H1,
           (find_endpoints_and_junctions g2) as [E2 J2] eqn:H2.
  assert (∀ g p, (p ∈ g.*1 ↔ graph_get g p ≠ []) → ∀ n, (0 < n)%nat →
            (p ∈ g.*1 ∧ length (graph_get g p) = n ↔ length (graph_get g p) = n)) as Heq.
  { intros g p Hk n Hn. rewrite Hk. destruct (graph_get g p); simpl; split; try naive_solver lia. }
  assert (∀ g p, (p ∈ g.*1 ↔ graph_get g p ≠ []) →
            (p ∈ g.*1 ∧ (3 ≤ length (graph_get g p))%nat ↔ (3 ≤ length (graph_get g p))%nat)) as Hge.
  { intros g p Hk. rewrite Hk. destruct (graph_get g p); simpl; split; try naive_solver lia. }
  f_equal; apply set_eq; intros p.
  - pose proof (elem_of_endpoints g1 p Hnd1) as He1.
    pose proof (elem_of_endpoints g2 p Hnd2) as He2.
    rewrite H1 in He1. rewrite H2 in He2. cbn [fst] in *.
    rewrite He1, He2, !Heq, Hdeg by (auto; lia). done.
  - pose proof (elem_of_junctions g1 p Hnd1) as He1.
    pose proof (elem_of_junctions g2 p Hnd2) as He2.
    rewrite H1 in He1. rewrite H2 in He2. cbn [snd] in *.
    rewrite He1, He2, !Hge, Hdeg by auto. done.
Qed.

Lemma build_graph_keys (lines : list Line) (p : Point) :
  p ∈ (build_graph lines).*1 ↔ graph_get (build_graph lines) p ≠ [].
Proof.
  split; [|apply graph_get_key].
  unfold build_graph.
  assert (∀ g : Graph, (∀ q, q ∈ g.*1 → graph_get g q ≠ []) →
            ∀ q, q ∈ (foldl add_line g lines).*1 → graph_get (foldl add_line g lines) q ≠ [])
    as Hgen; [|apply Hgen; intros q Hq; by apply elem_of_nil in Hq].
  induction lines as [|line lines IH]; intros g Hg; [done|].
  cbn [foldl]. apply IH. intros q. unfold add_line.
  destruct (line_points line) as [s e]. case_decide as Hse; [apply Hg|].
  rewrite !graph_keys_append, !graph_get_append.
  repeat case_decide; simplify_eq; rewrite ?elem_of_app, ?list_elem_of_singleton;
    try (intros _; by destruct (graph_get g _)); naive_solver.
Qed.

Section Rerun.
Context (set_order : gset Point → list Point).

(** C9, as amended: the polylines of a second run, on the consecutive
    point pairs of the first run's polylines, draw exactly the edges the
    first run drew, each once; and when the input has no retraced
    segment, every point has the same degree in both graphs, hence the
    endpoints and the junctions are the same. *)
Theorem rerun_same_edges (lines : list Line) :
  ∃ polylines1 polylines2,
    extract_polylines set_order (build_graph lines) = Some polylines1 ∧
    extract_polylines set_order (build_graph (polylines_lines polylines1))
      = Some polylines2 ∧
    (∀ e, e ∈ polylines_edges polylines2 ↔ e ∈ polylines_edges polylines1) ∧
    NoDup (polylines_edges polylines2) ∧
    (NoDup (segment_keys lines) →
     (∀ p, length (graph_get (build_graph (polylines_lines polylines1)) p) =
           length (graph_get (build_graph lines) p)) ∧
     find_endpoints_and_junctions (build_graph (polylines_lines polylines1)) =
     find_endpoints_and_junctions (build_graph lines)).
Proof.
  destruct (extract_polylines_spec set_order (build_graph lines) (build_graph_NoDup lines))
    as (visited1 & polylines1 & _ & Hrun1 & Hnd1 & _ & Hcover1 & Hpaths1).
  set (lines2 := polylines_lines polylines1).
  destruct (extract_polylines_spec set_order (build_graph lines2) (build_graph_NoDup lines2))
    as (visited2 & polylines2 & _ & Hrun2 & Hnd2 & _ & Hcover2 & _).
  assert (segment_keys lines2 = polylines_edges polylines1) as Hkeys.
  { apply (segment_keys_polylines lines).
    eapply Forall_impl; [exact Hpaths1|]. by intros path [? _ _]. }
  exists polylines1, polylines2. split_and!; [done|done| |done|].
  - intros e. by rewrite Hcover2, elem_of_graph_edges_build, Hkeys.
  - intros Hnd.
    assert (∀ p, length (graph_get (build_graph lines2) p) =
                 length (graph_get (build_graph lines) p)) as Hdeg.
    { intros p. rewrite !degree_segment_keys, Hkeys.
      apply Permutation_length, filter_Permutation, NoDup_Permutation; [done..|].
      intros e. by rewrite Hcover1, elem_of_graph_edges_build. }
    split; [done|].
    apply classes_of_degrees;
      [apply build_graph_NoDup..|apply build_graph_keys|apply build_graph_keys|done].
Qed.
End Rerun.

(** The hypothesis of C9 can be met: on a chain of three segments the
    second run sees the same endpoints and junctions. *)
Lemma rerun_same_edges_witness :
  let lines := [seg 0 0 1 0; seg 1 0 2 0; seg 2 0 3 0] in
  ∃ polylines1,
    extract_polylines elements (build_graph lines) = Some polylines1 ∧
    find_endpoints_and_junctions (build_graph (polylines_lines polylines1)) =
    find_endpoints_and_junctions (build_graph lines).
Proof.
  intros lines.
  destruct (rerun_same_edges elements lines)
    as (polylines1 & polylines2 & Hrun1 & _ & _ & _ & Hsame).
  exists polylines1. split; [exact Hrun1|].
  apply Hsame. apply (bool_decide_unpack _). vm_compute. exact I.
Defined.

(** C9, as stated, fails on an input with a retraced segment: the first
    run stops at the junction (1,0) and returns two polylines; on its
    output (1,0) has degree 2, and the second run merges the two. *)
Lemma rerun_merges_further :
  let lines := [seg 0 0 1 0; seg 0 0 1 0; seg 1 0 2 0] in
  ∃ polylines1 polylines2,
    extract_polylines elements (build_graph lines) = Some polylines1 ∧
    extract_polylines elements (build_graph (polylines_lines polylines1))
      = Some polylines2 ∧
    length polylines1 = 2%nat ∧ length polylines2 = 1%nat ∧
    (1000000, 0) ∈ (find_endpoints_and_junctions (build_graph lines)).2 ∧
    (1000000, 0) ∉
      (find_endpoints_and_junctions (build_graph (polylines_lines polylines1))).2.
Proof.
  exists [[(2000000, 0); (1000000, 0)]; [(1000000, 0); (0, 0)]],
         [[(0, 0); (1000000, 0); (2000000, 0)]].
  split_and!; [by vm_compute|by vm_compute|done|done|..];
    apply (bool_decide_unpack _); by vm_compute.
Qed.

(** ** The caller *)

Lemma build_graph_unusable (lines : list Line) :
  usable_segments lines = [] → build_graph lines = [].
Proof.
  unfold build_graph. generalize ([] : Graph).
  induction lines as [|line lines IH]; intros g Hnil; [done|].
  unfold usable_segments in Hnil. rewrite fmap_cons, filter_cons in Hnil.
  cbn [foldl]. unfold add_line at 2. destruct (line_points line) as [s e]. cbn [fst snd] in Hnil.
  destruct (decide (s ≠ e)) as [Hne|Heq]; [done|].
  rewrite decide_True by (by destruct (decide (s = e))). by apply IH.
Qed.

Lemma sweep_points_empty_graph (endpoints junctions : gset Point)
    (points : list Point) (st : ExtractState) :
  sweep_points [] endpoints junctions points st = Some st.
Proof. induction points as [|p points IH]; [done|]. cbn. apply IH. Qed.

Lemma extract_polylines_empty_graph (set_order : gset Point → list Point) :
  extract_polylines set_order [] = Some [].
Proof.
  unfold extract_polylines, phase3, phase2, phase1. cbn.
  rewrite sweep_points_empty_graph. cbn. by rewrite sweep_points_empty_graph.
Qed.

Lemma int_len_zero {A} (l : list A) : int_len l = 0 ↔ l = [].
Proof. unfold int_len. destruct l; simpl; split; (done || lia). Qed.

Section CallerResult.
Context (set_order : gset Point → list Point).

(** What [simplify_dxf_bytes] returns when the input has a LINE. *)
Lemma simplify_dxf_bytes_lines (msp : list Entity) :
  query_lines msp ≠ [] →
  ∃ polylines stats,
    extract_polylines set_order (build_graph (query_lines msp)) = Some polylines ∧
    simplify_dxf_bytes set_order msp =
      Some (Returned ((LWPOLYLINE <$> polylines) ++ copy_others msp) stats) ∧
    stats !! "original_line_count" = Some (PyInt (int_len (query_lines msp))) ∧
    stats !! "polyline_count" = Some (PyInt (int_len polylines)) ∧
    stats !! "reduction_ratio" =
      Some (reduction_ratio (int_len (query_lines msp)) polylines).
Proof.
  intros Hlines. unfold simplify_dxf_bytes.
  rewrite decide_False by (by rewrite int_len_zero).
  destruct (find_endpoints_and_junctions _) as [endpoints junctions].
  destruct (phase3_spec set_order (build_graph (query_lines msp)))
    as ([visited polylines] & Hrun & _).
  assert (extract_polylines set_order (build_graph (query_lines msp)) = Some polylines)
    as Hext by (unfold extract_polylines; by rewrite Hrun).
  rewrite Hext. cbn [mbind option_bind].
  eexists polylines, _. split_and!; [done|done|..]; by simplify_map_eq.
Qed.

(** C6, as amended: without usable segments, "nothing to simplify" is
    reported, and nothing else returned, when the input has no LINE at
    all; when it has LINEs, all of zero length, nothing is reported: the
    call returns an output without polylines and a polyline count of 0. *)
Theorem nothing_to_simplify (msp : list Entity) :
  usable_segments (query_lines msp) = [] →
  if decide (query_lines msp = [])
  then simplify_dxf_bytes set_order msp =
         Some (ValueError "No LINE entities found. Nothing to simplify.")
  else ∃ stats,
         simplify_dxf_bytes set_order msp = Some (Returned (copy_others msp) stats) ∧
         stats !! "polyline_count" = Some (PyInt 0).
Proof.
  intros Hnone. destruct (decide (query_lines msp = [])) as [Hnil|Hlines].
  - unfold simplify_dxf_bytes. by rewrite Hnil.
  - destruct (simplify_dxf_bytes_lines msp Hlines)
      as (polylines & stats & Hext & Hrun & _ & Hcount & _).
    rewrite (build_graph_unusable _ Hnone), extract_polylines_empty_graph in Hext.
    simplify_eq. by exists stats.
Qed.

(** C7, as amended: the reduction ratio in the statistics is the
    original segment count divided by the polyline count, and when there
    is no polyline it is the number 0. *)
Theorem reduction_ratio_reported (msp : list Entity) :
  query_lines msp ≠ [] →
  ∃ polylines output stats,
    extract_polylines set_order (build_graph (query_lines msp)) = Some polylines ∧
    simplify_dxf_bytes set_order msp = Some (Returned output stats) ∧
    stats !! "original_line_count" = Some (PyInt (int_len (query_lines msp))) ∧
    stats !! "polyline_count" = Some (PyInt (int_len polylines)) ∧
    if decide (polylines = [])
    then stats !! "reduction_ratio" = Some (PyInt 0)
    else ∃ r, stats !! "reduction_ratio" = Some (PyFloat r) ∧
              Qeq (Qmult r (inject_Z (int_len polylines)))
                  (inject_Z (int_len (query_lines msp))).
Proof.
  intros Hlines.
  destruct (simplify_dxf_bytes_lines msp Hlines)
    as (polylines & stats & Hext & Hrun & Horig & Hcount & Hratio).
  exists polylines, ((LWPOLYLINE <$> polylines) ++ copy_others msp), stats.
  split_and!; [done..|].
  destruct polylines as [|path polylines]; [done|].
  rewrite decide_False by done. eexists. split; [exact Hratio|].
  apply Qdiv_mult_l. unfold int_len. simpl. done.
Qed.
End CallerResult.

(** C6, as stated, fails: a single LINE of zero length leaves no usable
    segment, and the call returns normally. *)
Lemma degenerate_input_not_reported :
  usable_segments (query_lines [LINE (seg 0 0 0 0)]) = [] ∧
  ∃ stats, simplify_dxf_bytes elements [LINE (seg 0 0 0 0)] = Some (Returned [] stats).
Proof. split; [done|]. eexists. by vm_compute. Qed.

Lemma nothing_to_simplify_witness :
  ∃ stats,
    simplify_dxf_bytes elements [LINE (seg 0 0 0 0); OTHER "CIRCLE" true]
      = Some (Returned [COPIED "CIRCLE"] stats) ∧
    stats !! "polyline_count" = Some (PyInt 0).
Proof.
  apply (nothing_to_simplify elements [LINE (seg 0 0 0 0); OTHER "CIRCLE" true]).
  reflexivity.
Defined.

(** C7, as stated, fails: without polylines the ratio is present in the
    statistics, as the number 0. *)
Lemma ratio_zero_without_polylines :
  ∃ output stats,
    simplify_dxf_bytes elements [LINE (seg 0 0 0 0)] = Some (Returned output stats) ∧
    stats !! "polyline_count" = Some (PyInt 0) ∧
    stats !! "reduction_ratio" = Some (PyInt 0).
Proof. eexists _, _. split_and!; by vm_compute. Qed.

Lemma reduction_ratio_reported_witness :
  ∃ polylines output stats,
    extract_polylines elements
      (build_graph (query_lines [LINE (seg 0 0 1 0); LINE (seg 1 0 2 0)]))
      = Some polylines ∧
    simplify_dxf_bytes elements [LINE (seg 0 0 1 0); LINE (seg 1 0 2 0)]
      = Some (Returned output stats) ∧
    stats !! "original_line_count" = Some (PyInt 2) ∧
    stats !! "polyline_count" = Some (PyInt (int_len polylines)) ∧
    if decide (polylines = [])
    then stats !! "reduction_ratio" = Some (PyInt 0)
    else ∃ r, stats !! "reduction_ratio" = Some (PyFloat r) ∧
              Qeq (Qmult r (inject_Z (int_len polylines))) (inject_Z 2).
Proof.
  apply (reduction_ratio_reported elements [LINE (seg 0 0 1 0); LINE (seg 1 0 2 0)]).
  discriminate.
Defined.

(** ** The branching junction *)


Lemma Permutation_three_cases {A} (a b c : A) (l : list A) :
  l ≡ₚ [a; b; c] →
  l = [a; b; c] ∨ l = [a; c; b] ∨ l = [b; a; c] ∨
  l = [b; c; a] ∨ l = [c; a; b] ∨ l = [c; b; a].
Proof.
  intros Hl. pose proof (Permutation_length Hl) as Hlen.
  destruct l as [|x [|y [|z [|? ?]]]]; simpl in Hlen; try lia. clear Hlen.
  assert (x ∈ [a; b; c]) as Hx by (rewrite <- Hl; left).
  apply elem_of_cons in Hx as [->|Hx]; [|apply elem_of_cons in Hx as [->|Hx]];
    [| |apply list_elem_of_singleton in Hx as ->].
  - apply Permutation_cons_inv, Permutation_sym, Permutation_length_2_inv in Hl
      as [[= -> ->]|[= -> ->]]; auto.
  - rewrite (Permutation_swap b a [c]) in Hl.
    apply Permutation_cons_inv, Permutation_sym, Permutation_length_2_inv in Hl
      as [[= -> ->]|[= -> ->]]; auto 10.
  - assert ([a; b; c] ≡ₚ c :: [a; b]) as Hrot by (by rewrite (Permutation_cons_append [a; b] c)).
    rewrite Hrot in Hl.
    apply Permutation_cons_inv, Permutation_sym, Permutation_length_2_inv in Hl
      as [[= -> ->]|[= -> ->]]; auto 10.
Qed.

(** C4, as amended: for the segments (0,0)-(1,0), (1,0)-(2,0),
    (1,0)-(1,1) the point (1,0) has degree 3 and is the junction, the
    three other points are endpoints, and the output is exactly three
    polylines, one from each endpoint to (1,0), in the order in which the
    endpoint set is enumerated; together they draw each of the three
    edges once. *)
Theorem branching_junction (set_order : gset Point → list Point) :
  set_order_ok set_order →
  let graph := build_graph junction_lines in
  length (graph_get graph (1000000, 0)) = 3%nat ∧
  find_endpoints_and_junctions graph =
    ({[ (0, 0); (2000000, 0); (1000000, 1000000) ]}, {[ (1000000, 0) ]}) ∧
  ∃ polylines,
    extract_polylines set_order graph = Some polylines ∧
    polylines =
      (λ e, [e; (1000000, 0)]) <$> set_order (find_endpoints_and_junctions graph).1 ∧
    polylines ≡ₚ [[(0, 0); (1000000, 0)]; [(2000000, 0); (1000000, 0)];
                  [(1000000, 1000000); (1000000, 0)]] ∧
    polylines_edges polylines ≡ₚ segment_keys junction_lines.
Proof.
  intros Hord graph.
  assert (find_endpoints_and_junctions graph =
            ({[ (0, 0); (2000000, 0); (1000000, 1000000) ]}, {[ (1000000, 0) ]})) as Hclasses
    by (by vm_compute).
  split_and!; [by vm_compute | done |].
  destruct (extract_polylines_spec set_order graph (build_graph_NoDup junction_lines))
    as (visited & polylines & _ & Hrun & Hnd & _ & Hcover & _).
  exists polylines.
  assert (polylines =
          (λ e, [e; (1000000, 0)]) <$> set_order (find_endpoints_and_junctions graph).1)
    as Hshape.
  { revert Hrun. unfold extract_polylines, phase3, phase2, phase1.
    rewrite Hclasses. cbn [fst snd].
    pose proof (Hord {[ (1000000, 0) ]}) as Hj.
    pose proof (Hord {[ (0, 0); (2000000, 0); (1000000, 1000000) ]}) as He.
    replace (elements ({[ (1000000, 0) ]} : gset Point)) with [(1000000, 0)] in Hj
      by (by vm_compute).
    replace (elements ({[ (0, 0); (2000000, 0); (1000000, 1000000) ]} : gset Point))
      with [(0, 0); (2000000, 0); (1000000, 1000000)] in He by (by vm_compute).
    apply Permutation_singleton_r in Hj. rewrite Hj. clear Hj.
    destruct (Permutation_three_cases _ _ _ _ He)
      as [Hl|[Hl|[Hl|[Hl|[Hl|Hl]]]]]; rewrite Hl; vm_compute; by intros [= <-]. }
  split_and!; [done|done| |].
  - rewrite Hshape, Hclasses. cbn [fst]. rewrite (Hord _).
    replace (elements ({[ (0, 0); (2000000, 0); (1000000, 1000000) ]} : gset Point))
      with [(0, 0); (2000000, 0); (1000000, 1000000)] by (by vm_compute).
    done.
  - apply NoDup_Permutation; [done| |].
    + apply (bool_decide_unpack _). by vm_compute.
    + intros e. rewrite Hcover. apply elem_of_graph_edges_build.
Qed.

Lemma branching_junction_witness :
  ∃ polylines,
    extract_polylines elements (build_graph junction_lines) = Some polylines ∧
    polylines ≡ₚ [[(0, 0); (1000000, 0)]; [(2000000, 0); (1000000, 0)];
                  [(1000000, 1000000); (1000000, 0)]].
Proof.
  destruct (branching_junction elements) as (_ & _ & polylines & Hrun & _ & Hperm & _).
  - intros s. reflexivity.
  - exists polylines. split; [exact Hrun | exact Hperm].
Defined.

(** C4, as stated, fails: the output has three polylines, not two, and
    none of them starts at the junction (1,0). *)
Lemma branching_junction_three_polylines :
  ∃ polylines,
    extract_polylines elements (build_graph junction_lines) = Some polylines ∧
    length polylines ≠ 2%nat ∧
    Forall (λ path, head path ≠ Some (1000000, 0)) polylines.
Proof.
  exists [[(0, 0); (1000000, 0)]; [(2000000, 0); (1000000, 0)];
          [(1000000, 1000000); (1000000, 0)]].
  split_and!; [by vm_compute | by simpl | repeat constructor; by simpl].
Qed.

(** ** The closed square *)

Lemma two_neighbors_comm (l : list Point) (x y : Point) :
  two_neighbors l x y → two_neighbors l y x.
Proof. unfold two_neighbors. tauto. Qed.

Lemma two_neighbors_intro (l : list Point) (x y : Point) :
  length l = 2%nat → x ∈ l → y ∈ l → x ≠ y → two_neighbors l x y.
Proof.
  intros Hlen Hx Hy Hne. destruct l as [|u [|v [|? ?]]]; simplify_eq/=.
  unfold two_neighbors. set_unfold. naive_solver.
Qed.

Lemma first_unvisited_all_visited (cur : Point) (ns : list Point) (vis : gset Edge) :
  (∀ n, n ∈ ns → get_edge_key cur n ∈ vis) → first_unvisited cur ns vis = None.
Proof.
  induction ns as [|n ns IH]; intros Hall; [done|]. simpl.
  rewrite decide_True by (apply Hall; left). apply IH. intros m Hm. apply Hall. by right.
Qed.

Lemma first_unvisited_two (cur : Point) (ns : list Point) (vis : gset Edge) (x y : Point) :
  two_neighbors ns x y →
  get_edge_key cur x ∈ vis → get_edge_key cur y ∉ vis →
  first_unvisited cur ns vis = Some y.
Proof.
  intros [-> | ->] Hx Hy; simpl.
  - by rewrite decide_True, decide_False.
  - by rewrite decide_False.
Qed.

Section TraceInversion.
Context (graph : Graph) (endpoints junctions : gset Point).

Lemma traced_step_inv current vis ext vis' n :
  traced graph endpoints junctions current vis ext vis' →
  first_unvisited current (graph_get graph current) vis = Some n →
  n ∉ endpoints → n ∉ junctions →
  ∃ ext', ext = n :: ext' ∧
          traced graph endpoints junctions n
            ({[ get_edge_key current n ]} ∪ vis) ext' vis'.
Proof.
  intros Htr Hn HE HJ.
  inversion Htr as [? ? Hnone|? ? m Hm Hb|? ? m ext' ? Hm Hb Htr']; subst.
  - congruence.
  - rewrite Hn in Hm. simplify_eq. tauto.
  - rewrite Hn in Hm. simplify_eq. by exists ext'.
Qed.

Lemma traced_stop_inv current vis ext vis' :
  traced graph endpoints junctions current vis ext vis' →
  first_unvisited current (graph_get graph current) vis = None →
  ext = [] ∧ vis' = vis.
Proof.
  intros Htr Hnone.
  inversion Htr as [? ? _|? ? m Hm Hb|? ? m ext' ? Hm Hb Htr']; subst;
    [done|congruence..].
Qed.

Lemma sweep_neighbors_visited point neighbors st :
  (∀ n, n ∈ neighbors → get_edge_key point n ∈ st.1) →
  sweep_neighbors graph endpoints junctions point neighbors st = Some st.
Proof.
  induction neighbors as [|n ns IH]; intros Hall; [done|]. cbn [sweep_neighbors].
  rewrite decide_True by (apply Hall; left). apply IH. intros m Hm. apply Hall. by right.
Qed.

Lemma sweep_points_visited points st :
  (∀ p n, p ∈ points → n ∈ graph_get graph p → get_edge_key p n ∈ st.1) →
  sweep_points graph endpoints junctions points st = Some st.
Proof.
  induction points as [|p points IH]; intros Hall; [done|]. cbn [sweep_points].
  rewrite sweep_neighbors_visited by (intros n; apply Hall; left). cbn.
  apply IH. intros q n Hq. apply Hall. by right.
Qed.
End TraceInversion.

Lemma get_edge_key_eq_iff (p q p' q' : Point) :
  get_edge_key p q = get_edge_key p' q' ↔ (p = p' ∧ q = q') ∨ (p = q' ∧ q = p').
Proof.
  split; [apply get_edge_key_inj|].
  intros [[-> ->]|[-> ->]]; [done | apply get_edge_key_comm].
Qed.

Lemma NoDup_four (s n1 o n2 : Point) :
  NoDup [s; n1; o; n2] ↔
  s ≠ n1 ∧ s ≠ o ∧ s ≠ n2 ∧ n1 ≠ o ∧ n1 ≠ n2 ∧ o ≠ n2.
Proof.
  rewrite !NoDup_cons. set_unfold. split; [naive_solver|].
  intros (? & ? & ? & ? & ? & ?). split_and!; try naive_solver. constructor.
Qed.

Lemma is_square_distinct (graph : Graph) (s n1 o n2 : Point) :
  is_square graph s n1 o n2 →
  s ≠ n1 ∧ s ≠ o ∧ s ≠ n2 ∧ n1 ≠ o ∧ n1 ≠ n2 ∧ o ≠ n2.
Proof. intros [Hnd _ _ _ _]. by apply NoDup_four. Qed.

Lemma is_square_rotate (graph : Graph) (s n1 o n2 : Point) :
  is_square graph s n1 o n2 → is_square graph n1 o n2 s.
Proof.
  intros [Hnd Hs H1 Ho H2]. split; auto using two_neighbors_comm.
  apply NoDup_four. apply NoDup_four in Hnd. naive_solver.
Qed.

Lemma is_square_reflect (graph : Graph) (s n1 o n2 : Point) :
  is_square graph s n1 o n2 → is_square graph s n2 o n1.
Proof.
  intros [Hnd Hs H1 Ho H2]. split; auto using two_neighbors_comm.
  apply NoDup_four. apply NoDup_four in Hnd. naive_solver.
Qed.

(** Around the square: from [s] with nothing visited, the trace takes
    the first neighbour of [s], goes round, comes back to [s] and stops
    there, having visited the four edges. *)
Lemma square_trace (graph : Graph) (s n1 o n2 : Point) (ext : list Point)
    (vis' : gset Edge) :
  is_square graph s n1 o n2 →
  graph_get graph s = [n1; n2] →
  traced graph ∅ ∅ s ∅ ext vis' →
  ext = [n1; o; n2; s] ∧
  vis' = {[ get_edge_key n2 s ]} ∪ ({[ get_edge_key o n2 ]} ∪
         ({[ get_edge_key n1 o ]} ∪ ({[ get_edge_key s n1 ]} ∪ ∅))).
Proof.
  intros Hsq Hs Htr.
  destruct (is_square_distinct _ _ _ _ _ Hsq) as (D1 & D2 & D3 & D4 & D5 & D6).
  destruct Hsq as [_ _ H1 Ho H2].
  apply traced_step_inv with (n := n1) in Htr as (e1 & -> & Htr); [|..|done|done].
  2:{ rewrite Hs. simpl. by rewrite decide_False. }
  apply traced_step_inv with (n := o) in Htr as (e2 & -> & Htr); [|..|done|done].
  2:{ apply (first_unvisited_two _ _ _ s); [done|..];
        set_unfold; rewrite ?get_edge_key_eq_iff; naive_solver. }
  apply traced_step_inv with (n := n2) in Htr as (e3 & -> & Htr); [|..|done|done].
  2:{ apply (first_unvisited_two _ _ _ n1); [done|..];
        set_unfold; rewrite ?get_edge_key_eq_iff; naive_solver. }
  apply traced_step_inv with (n := s) in Htr as (e4 & -> & Htr); [|..|done|done].
  2:{ apply (first_unvisited_two _ _ _ o); [done|..];
        set_unfold; rewrite ?get_edge_key_eq_iff; naive_solver. }
  apply traced_stop_inv in Htr as [-> ->]; [done|].
  apply first_unvisited_all_visited. rewrite Hs. intros n Hn.
  set_unfold. rewrite ?get_edge_key_eq_iff. naive_solver.
Qed.

Section Square.
Context (lines : list Line) (a b c d : Point).
Hypothesis Hdistinct : NoDup [a; b; c; d].
Hypothesis Hsides : segment_keys lines ≡ₚ square_keys a b c d.

Lemma square_degree (p : Point) :
  length (graph_get (build_graph lines) p) =
  if decide (p ∈ [a; b; c; d]) then 2%nat else 0%nat.
Proof.
  rewrite degree_segment_keys, Hsides. unfold square_keys.
  apply NoDup_four in Hdistinct as (D1 & D2 & D3 & D4 & D5 & D6).
  rewrite !filter_cons, filter_nil.
  repeat case_decide; rewrite ?touches_edge_key in *; unfold touches in *;
    cbn [fst snd] in *; set_unfold; simpl; try done; exfalso; naive_solver.
Qed.

Lemma square_neighbor (p n : Point) :
  get_edge_key p n ∈ square_keys a b c d → n ∈ graph_get (build_graph lines) p.
Proof.
  intros Hk. apply edge_key_neighbor, elem_of_graph_edges_build. by rewrite Hsides.
Qed.

Lemma square_is_square : is_square (build_graph lines) a b c d.
Proof.
  pose proof Hdistinct as (D1 & D2 & D3 & D4 & D5 & D6)%NoDup_four.
  split; [done|..]; apply two_neighbors_intro; try done;
    try (rewrite square_degree; apply decide_True; set_solver);
    apply square_neighbor; unfold square_keys;
    rewrite ?(get_edge_key_comm a d), ?(get_edge_key_comm b a),
      ?(get_edge_key_comm c b), ?(get_edge_key_comm d c); set_solver.
Qed.

Lemma square_no_boundary :
  find_endpoints_and_junctions (build_graph lines) = (∅, ∅).
Proof.
  destruct (find_endpoints_and_junctions (build_graph lines)) as [E J] eqn:Hc.
  f_equal; apply elem_of_equiv_empty_L; intros p Hp.
  - pose proof (elem_of_endpoints _ p (build_graph_NoDup lines)) as He.
    rewrite Hc in He. apply He in Hp as [_ Hp]. rewrite square_degree in Hp.
    by case_decide.
  - pose proof (elem_of_junctions _ p (build_graph_NoDup lines)) as He.
    rewrite Hc in He. apply He in Hp as [_ Hp]. rewrite square_degree in Hp.
    case_decide; lia.
Qed.

Lemma square_key_points (p : Point) :
  p ∈ (build_graph lines).*1 → p ∈ [a; b; c; d].
Proof.
  intros Hp. apply build_graph_keys in Hp.
  pose proof (square_degree p) as Hdeg. case_decide; [done|].
  by destruct (graph_get (build_graph lines) p).
Qed.
End Square.

Lemma square_from (graph : Graph) (a b c d s : Point) :
  is_square graph a b c d → s ∈ [a; b; c; d] →
  ∃ n1 o n2,
    is_square graph s n1 o n2 ∧ graph_get graph s = [n1; n2] ∧
    ∀ p, p ∈ [s; n1; o; n2] ↔ p ∈ [a; b; c; d].
Proof.
  intros Hsq Hs.
  assert (∃ x y z, is_square graph s x y z ∧
                   ∀ p, p ∈ [s; x; y; z] ↔ p ∈ [a; b; c; d]) as (x & y & z & Hsq' & Hsame).
  { set_unfold.
    destruct Hs as [->|[->|[->|[->|[]]]]].
    - exists b, c, d. split; [done | naive_solver].
    - exists c, d, a. split; [by apply is_square_rotate | naive_solver].
    - exists d, a, b. split; [by do 2 apply is_square_rotate | naive_solver].
    - exists a, b, c. split; [by do 3 apply is_square_rotate | naive_solver]. }
  destruct (square_s _ _ _ _ _ Hsq') as [Hget|Hget].
  - by exists x, y, z.
  - exists z, y, x. split_and!; [by apply is_square_reflect | done |].
    intros p. rewrite <- Hsame. set_solver.
Qed.

(** The third phase on a square: the trace from the first key goes
    round; nothing is left for the other keys. *)
Lemma square_sweep (graph : Graph) (s n1 o n2 : Point) (rest : list Point) :
  is_square graph s n1 o n2 → graph_get graph s = [n1; n2] →
  (∀ p, p ∈ rest → p ∈ [s; n1; o; n2]) →
  snd <$> sweep_points graph ∅ ∅ (s :: rest) (∅, []) = Some [[s; n1; o; n2; s]].
Proof.
  intros Hsq Hs Hrest. cbn [sweep_points]. rewrite Hs. cbn [sweep_neighbors fst snd].
  rewrite decide_False by set_solver.
  destruct (trace_path_traced graph ∅ ∅ s ∅) as (ext & vis' & -> & Htr).
  apply (square_trace _ _ _ _ _ _ _ Hsq Hs) in Htr as [-> ->].
  cbn [mbind option_bind fst snd length app].
  rewrite (decide_True (P := (2 ≤ 5)%nat)) by lia.
  rewrite decide_True
    by (rewrite (get_edge_key_comm s n2); apply elem_of_union_l, elem_of_singleton_2; done).
  cbn [mbind option_bind].
  rewrite sweep_points_visited; [done|].
  intros p n Hp Hn. cbn [fst]. apply Hrest in Hp.
  destruct Hsq as [_ H0 H1 Ho H2].
  assert (∀ l x y, two_neighbors l x y → n ∈ l → n = x ∨ n = y) as Htwo.
  { intros l x y [-> | ->]; set_solver. }
  set_unfold. rewrite ?get_edge_key_eq_iff.
  destruct Hp as [->|[->|[->|[->|[]]]]].
  - apply (Htwo _ _ _ H0) in Hn. naive_solver.
  - apply (Htwo _ _ _ H1) in Hn. naive_solver.
  - apply (Htwo _ _ _ Ho) in Hn. naive_solver.
  - apply (Htwo _ _ _ H2) in Hn. naive_solver.
Qed.

(** C8: four segments forming a closed square, given in any order and
    direction.  Every corner has degree 2, the first two phases find
    nothing, and the third returns exactly one polyline of 5 points that
    goes round the square and ends on the point it starts from. *)
Theorem closed_square_one_loop (set_order : gset Point → list Point)
    (lines : list Line) (a b c d : Point) :
  set_order_ok set_order →
  NoDup [a; b; c; d] →
  segment_keys lines ≡ₚ square_keys a b c d →
  (∀ p, p ∈ [a; b; c; d] → length (graph_get (build_graph lines) p) = 2%nat) ∧
  phase2 set_order (build_graph lines) = Some (∅, []) ∧
  ∃ s n1 o n2,
    extract_polylines set_order (build_graph lines) = Some [[s; n1; o; n2; s]] ∧
    [s; n1; o; n2] ≡ₚ [a; b; c; d] ∧
    is_square (build_graph lines) s n1 o n2.
Proof.
  intros Hord Hnd Hsides.
  pose proof (square_no_boundary lines a b c d Hnd Hsides) as Hclasses.
  pose proof (square_is_square lines a b c d Hnd Hsides) as Hsq.
  assert (set_order ∅ = []) as Hempty.
  { apply Permutation_nil_r. rewrite (Hord ∅). by rewrite elements_empty. }
  assert (phase2 set_order (build_graph lines) = Some (∅, [])) as Hphase2.
  { unfold phase2, phase1. rewrite Hclasses, Hempty. done. }
  split_and!; [|done|].
  - intros p Hp. rewrite (square_degree lines a b c d Hnd Hsides). by rewrite decide_True.
  - destruct (build_graph lines).*1 as [|s rest] eqn:Hkeys.
    { assert (a ∈ (build_graph lines).*1) as Ha; [|rewrite Hkeys in Ha; by apply elem_of_nil in Ha].
      apply build_graph_keys. intros Hnil.
      pose proof (square_degree lines a b c d Hnd Hsides a) as Hdeg.
      rewrite Hnil, decide_True in Hdeg by set_solver. done. }
    assert (∀ p, p ∈ s :: rest → p ∈ [a; b; c; d]) as Hpoints.
    { intros p Hp. rewrite <- Hkeys in Hp. by eapply square_key_points. }
    destruct (square_from _ a b c d s Hsq) as (n1 & o & n2 & Hsq' & Hget & Hsame);
      [apply Hpoints; left|].
    exists s, n1, o, n2. split_and!; [|apply NoDup_Permutation|done].
    + unfold extract_polylines, phase3. rewrite Hclasses, Hphase2, Hkeys.
      cbn [mbind option_bind]. apply square_sweep; [done..|].
      intros p Hp. apply Hsame, Hpoints. by right.
    + apply Hsq'.
    + done.
    + done.
Qed.

Lemma closed_square_one_loop_witness :
  extract_polylines elements
    (build_graph [seg 0 0 1 0; seg 1 0 1 1; seg 1 1 0 1; seg 0 1 0 0])
  = Some [[(0, 0); (1000000, 0); (1000000, 1000000); (0, 1000000); (0, 0)]].
Proof.
  destruct (closed_square_one_loop elements
              [seg 0 0 1 0; seg 1 0 1 1; seg 1 1 0 1; seg 0 1 0 0]
              (0, 0) (1000000, 0) (1000000, 1000000) (0, 1000000))
    as (_ & _ & s & n1 & o & n2 & Hrun & _).
  - intros s. reflexivity.
  - apply (bool_decide_unpack _). by vm_compute.
  - reflexivity.
  - reflexivity.
Defined.

(** The square of C8 with its sides given in another order and
    direction: the loop starts elsewhere, and is still one loop. *)
Example closed_square_shuffled :
  extract_polylines elements
    (build_graph [seg 1 1 1 0; seg 0 0 0 1; seg 0 1 1 1; seg 1 0 0 0])
  = Some [[(1000000, 1000000); (1000000, 0); (0, 0); (0, 1000000); (1000000, 1000000)]].
Proof. by vm_compute. Qed.


(** * Further properties of the code *)

(** ** [get_edge_key] *)

(** X1: the edge key does not depend on the order of its two points, two
    keys are equal exactly when they have the same two points, and the
    first component of a key is never the larger one. *)
Theorem get_edge_key_canonical (p q p' q' : Point) :
  get_edge_key p q = get_edge_key q p ∧
  (get_edge_key p q = get_edge_key p' q' ↔
     (p = p' ∧ q = q') ∨ (p = q' ∧ q = p')) ∧
  point_ltb (get_edge_key p q).2 (get_edge_key p q).1 = false.
Proof.
  split_and!; [apply get_edge_key_comm | apply get_edge_key_eq_iff |].
  assert (∀ r : Point, point_ltb r r = false) as Hirrefl.
  { intros r. unfold point_ltb. by rewrite !Z.ltb_irrefl, andb_false_r. }
  unfold get_edge_key, point_min, point_max. cbn [fst snd].
  destruct (point_ltb q p) eqn:Hqp, (point_ltb p q) eqn:Hpq; auto.
Qed.

(** ** [build_graph] *)

Lemma add_line_zero_length (graph : Graph) (line : Line) :
  (line_points line).1 = (line_points line).2 → add_line graph line = graph.
Proof.
  unfold add_line. destruct (line_points line) as [s e]. cbn [fst snd].
  intros ->. by rewrite decide_True.
Qed.

(** X2: lines whose two rounded ends are equal leave no trace in the
    graph: the graph is the one built from the other lines alone. *)
Theorem build_graph_skips_zero_length (lines : list Line) :
  build_graph lines =
  build_graph (filter (λ line, (line_points line).1 ≠ (line_points line).2) lines).
Proof.
  unfold build_graph. generalize ([] : Graph).
  induction lines as [|line lines IH]; intros g; [done|].
  rewrite filter_cons. destruct (decide _) as [Hne|Heq].
  - cbn [foldl]. apply IH.
  - cbn [foldl]. rewrite add_line_zero_length; [apply IH|].
    by destruct (decide ((line_points line).1 = (line_points line).2)).
Qed.

Lemma segment_neighbors_nil (p : Point) (s : Point * Point) :
  segment_neighbors p s = [] ↔ ¬ touches p s.
Proof.
  destruct s as [u v]. unfold segment_neighbors, touches. cbn [fst snd].
  repeat case_decide; simplify_eq; simpl; split; try done; naive_solver.
Qed.

(** X3: the keys of the built graph are pairwise distinct; a point is a
    key exactly when it is an end of a usable segment, and exactly when
    its neighbour list is not empty. *)
Theorem build_graph_points (lines : list Line) (p : Point) :
  NoDup (build_graph lines).*1 ∧
  (p ∈ (build_graph lines).*1 ↔ ∃ s, s ∈ usable_segments lines ∧ touches p s) ∧
  (p ∈ (build_graph lines).*1 ↔ graph_get (build_graph lines) p ≠ []).
Proof.
  split_and!; [apply build_graph_NoDup| |apply build_graph_keys].
  rewrite build_graph_keys, graph_get_build. split.
  - intros Hne. destruct (usable_segments lines ≫= segment_neighbors p) as [|n ns] eqn:Hb; [done|].
    assert (n ∈ usable_segments lines ≫= segment_neighbors p) as Hn by (rewrite Hb; left).
    apply list_elem_of_bind in Hn as (s & Hn & Hs). exists s. split; [done|].
    destruct (decide (touches p s)) as [|Hnt]; [done|].
    apply segment_neighbors_nil in Hnt. rewrite Hnt in Hn. by apply elem_of_nil in Hn.
  - intros (s & Hs & Ht) Hnil.
    destruct (segment_neighbors p s) as [|n ns] eqn:Hsn.
    + by apply segment_neighbors_nil in Hsn.
    + assert (n ∈ usable_segments lines ≫= segment_neighbors p) as Hn.
      { apply list_elem_of_bind. exists s. split; [rewrite Hsn; left | done]. }
      rewrite Hnil in Hn. by apply elem_of_nil in Hn.
Qed.

Lemma graph_edges_append_length (graph : Graph) (p n : Point) :
  length (graph_edges (graph_append graph p n)) = S (length (graph_edges graph)).
Proof.
  unfold graph_edges. induction graph as [|[k ns] rest IH]; [done|].
  cbn [graph_append]. destruct (decide (k = p)) as [->|Hne].
  - rewrite !bind_cons, !length_app. cbn [fst snd].
    rewrite !length_fmap, length_app. simpl. lia.
  - rewrite !bind_cons, !length_app, IH. lia.
Qed.

(** X4: every usable segment is entered twice, once at each of its ends:
    the neighbour lists of the built graph hold, in all, twice as many
    entries as there are usable segments. *)
Theorem build_graph_entries (lines : list Line) :
  length (graph_edges (build_graph lines)) = (2 * length (usable_segments lines))%nat.
Proof.
  unfold build_graph.
  assert (∀ g : Graph, length (graph_edges (foldl add_line g lines)) =
            (length (graph_edges g) + 2 * length (usable_segments lines))%nat) as Hgen;
    [|by rewrite Hgen].
  induction lines as [|line lines IH]; intros g; [simpl; lia|].
  cbn [foldl]. rewrite IH. unfold usable_segments. rewrite fmap_cons, filter_cons.
  unfold add_line. destruct (line_points line) as [s e]. cbn [fst snd].
  destruct (decide (s = e)) as [->|Hne].
  - rewrite decide_False by (intros ?; done). lia.
  - rewrite decide_True by done. rewrite !graph_edges_append_length. simpl. lia.
Qed.

Lemma segment_neighbors_swap (p : Point) (s : Point * Point) :
  s.1 ≠ s.2 → segment_neighbors p (s.2, s.1) = segment_neighbors p s.
Proof.
  destruct s as [u v]. unfold segment_neighbors. cbn [fst snd]. intros Hne.
  repeat case_decide; simplify_eq; done.
Qed.

(** X5: the direction in which a line is given does not matter to the
    neighbour lists: if every line of one input is a line of the other,
    at the same place, as it is or turned round, then every point has the
    same neighbour list in both graphs. *)
Theorem build_graph_direction (lines lines' : list Line) (p : Point) :
  Forall2 (λ l l', line_points l' = line_points l ∨
                   line_points l' = ((line_points l).2, (line_points l).1))
    lines lines' →
  graph_get (build_graph lines') p = graph_get (build_graph lines) p.
Proof.
  rewrite !graph_get_build. unfold usable_segments.
  induction 1 as [|l l' lines lines' Hl _ IH]; [done|].
  rewrite !fmap_cons, !filter_cons.
  destruct Hl as [-> | ->].
  - destruct (decide _); [|done]. by rewrite !bind_cons, IH.
  - cbn [fst snd].
    destruct (decide ((line_points l).2 ≠ (line_points l).1)) as [Hne|Heq].
    + rewrite decide_True by (intros ?; by apply Hne).
      rewrite !bind_cons, IH, segment_neighbors_swap; [done|].
      intros ?; by apply Hne.
    + rewrite decide_False; [done|]. intros Hne. apply Heq. intros ?; by apply Hne.
Qed.

Lemma build_graph_direction_witness :
  graph_get (build_graph [seg 1 0 0 0; seg 1 0 2 0]) (1000000, 0) =
  graph_get (build_graph [seg 0 0 1 0; seg 1 0 2 0]) (1000000, 0).
Proof.
  apply build_graph_direction.
  constructor; [right; reflexivity|].
  constructor; [left; reflexivity|]. constructor.
Defined.

(** ** [find_endpoints_and_junctions] *)

(** X6: on a dict, the endpoints are the keys with exactly one neighbour
    entry, the junctions the keys with three or more, and no point is in
    both sets. *)
Theorem classes_by_degree (graph : Graph) (p : Point) :
  NoDup graph.*1 →
  (p ∈ (find_endpoints_and_junctions graph).1 ↔
     p ∈ graph.*1 ∧ length (graph_get graph p) = 1%nat) ∧
  (p ∈ (find_endpoints_and_junctions graph).2 ↔
     p ∈ graph.*1 ∧ (3 ≤ length (graph_get graph p))%nat) ∧
  (find_endpoints_and_junctions graph).1 ## (find_endpoints_and_junctions graph).2.
Proof.
  intros Hnd. split_and!; [by apply elem_of_endpoints | by apply elem_of_junctions |].
  intros q HE HJ. apply elem_of_endpoints in HE as [_ HE]; [|done].
  apply elem_of_junctions in HJ as [_ HJ]; [|done]. lia.
Qed.

Lemma classes_by_degree_witness :
  ((1000000, 0) : Point) ∈ (find_endpoints_and_junctions (build_graph junction_lines)).2 ↔
  ((1000000, 0) : Point) ∈ (build_graph junction_lines).*1 ∧
  (3 ≤ length (graph_get (build_graph junction_lines) (1000000, 0)%Z))%nat.
Proof.
  apply (classes_by_degree (build_graph junction_lines) (1000000, 0)).
  apply (bool_decide_unpack _). by vm_compute.
Defined.

(** ** [trace_path] *)

Lemma polyline_edges_length (path : Polyline) :
  length (polyline_edges path) = (length path - 1)%nat.
Proof.
  induction path as [|p [|q path] IH]; [done..|].
  change (polyline_edges (p :: q :: path))
    with (get_edge_key p q :: polyline_edges (q :: path)).
  simpl in *. lia.
Qed.

Lemma traced_last (graph : Graph) (endpoints junctions : gset Point)
    (current : Point) (vis : gset Edge) (ext : list Point) (vis' : gset Edge) :
  traced graph endpoints junctions current vis ext vis' →
  ∃ l, last (current :: ext) = Some l ∧
       ((ext ≠ [] ∧ (l ∈ endpoints ∨ l ∈ junctions)) ∨
        (∀ n, n ∈ graph_get graph l → get_edge_key l n ∈ vis')).
Proof.
  induction 1 as [cur vis Hnone|cur vis n Hn Hb|cur vis n ext vis' Hn Hb Htr IH].
  - exists cur. split; [done|]. right. by apply first_unvisited_None.
  - exists n. split; [done|]. by left.
  - destruct IH as (l & Hl & Hstop). exists l. split; [done|].
    destruct Hstop as [[_ Hbound]|Hall]; [left|by right]. done.
Qed.

Lemma traced_nil (graph : Graph) (endpoints junctions : gset Point)
    (current : Point) (vis : gset Edge) (ext : list Point) (vis' : gset Edge) :
  traced graph endpoints junctions current vis ext vis' →
  ext = [] ↔ ∀ n, n ∈ graph_get graph current → get_edge_key current n ∈ vis.
Proof.
  intros Htr. split.
  - intros ->. inversion Htr; subst. by apply first_unvisited_None.
  - intros Hall. apply first_unvisited_all_visited in Hall.
    by apply (traced_stop_inv _ _ _ _ _ _ _ Htr) in Hall as [-> _].
Qed.

Section TracePath.
Context (graph : Graph) (endpoints junctions : gset Point).
Context (start : Point) (visited : gset Edge).

(** X7: [trace_path] returns a path that begins with [start]; the path
    is [start] alone, and the visited set is left as it was, exactly when
    every edge at [start] is already visited (in particular when [start]
    has no neighbour, or is not a key at all). *)
Theorem trace_path_no_edge :
  ∃ path visited',
    trace_path start graph visited endpoints junctions = Some (path, visited') ∧
    head path = Some start ∧
    (path = [start] ↔
       ∀ n, n ∈ graph_get graph start → get_edge_key start n ∈ visited) ∧
    (path = [start] → visited' = visited).
Proof.
  destruct (trace_path_traced graph endpoints junctions start visited)
    as (ext & vis' & Hrun & Htr).
  exists (start :: ext), vis'. split_and!; [done|done| |].
  - rewrite <- (traced_nil _ _ _ _ _ _ _ Htr). split; [by intros [= ->] | by intros ->].
  - intros [= ->]. by inversion Htr.
Qed.

(** X8: the edges [trace_path] marks are exactly the edges of the path it
    returns: each is a neighbour entry of the graph, none was visited
    before, none occurs twice in the path, and the visited set grows by
    one key per step of the path. *)
Theorem trace_path_visited :
  ∃ path visited',
    trace_path start graph visited endpoints junctions = Some (path, visited') ∧
    visited' = list_to_set (polyline_edges path) ∪ visited ∧
    NoDup (polyline_edges path) ∧
    (∀ e, e ∈ polyline_edges path → (e ∉ visited) ∧ e ∈ graph_edges graph) ∧
    size visited' = (size visited + (length path - 1))%nat.
Proof.
  destruct (trace_path_traced graph endpoints junctions start visited)
    as (ext & vis' & Hrun & Htr).
  apply traced_spec in Htr as (-> & Hnd & Hfresh & Hadj & _).
  exists (start :: ext), (list_to_set (polyline_edges (start :: ext)) ∪ visited).
  split_and!; [done|done|done| |].
  - intros e He. split; [by apply Hfresh | by eapply adjacent_graph_edges].
  - rewrite size_union, size_list_to_set, polyline_edges_length by (done || set_solver). lia.
Qed.

(** X9: where the path of [trace_path] stops.  Its last point is an
    endpoint or a junction reached by an edge, or a point all of whose
    edges are visited by then; and no point strictly inside the path is
    an endpoint or a junction. *)
Theorem trace_path_stops :
  ∃ path visited' l,
    trace_path start graph visited endpoints junctions = Some (path, visited') ∧
    last path = Some l ∧
    (((2 ≤ length path)%nat ∧ (l ∈ endpoints ∨ l ∈ junctions)) ∨
     (∀ n, n ∈ graph_get graph l → get_edge_key l n ∈ visited')) ∧
    ∀ i p, path !! i = Some p → (0 < i)%nat → (S i < length path)%nat →
           pass_through endpoints junctions p.
Proof.
  destruct (trace_path_traced graph endpoints junctions start visited)
    as (ext & vis' & Hrun & Htr).
  destruct (traced_last _ _ _ _ _ _ _ Htr) as (l & Hl & Hstop).
  exists (start :: ext), vis', l. split_and!; [done|done| |].
  - destruct Hstop as [[Hne Hb]|Hall]; [left|by right].
    split; [|done]. destruct ext; [done | simpl; lia].
  - intros i p Hp Hi Hlen.
    apply traced_spec in Htr as (_ & _ & _ & _ & Hint).
    eapply Forall_forall; [exact Hint|].
    by apply (interior_lookup (start :: ext) i p).
Qed.
End TracePath.

(** ** The polylines returned *)

Lemma polylines_edges_count (polylines : list Polyline) :
  Forall (λ path, (2 ≤ length path)%nat) polylines →
  (length polylines ≤ length (polylines_edges polylines))%nat.
Proof.
  unfold polylines_edges. induction 1 as [|path polylines Hlen _ IH]; [done|].
  rewrite bind_cons, length_app, polyline_edges_length. simpl. lia.
Qed.

Lemma polylines_count_le (set_order : gset Point → list Point) (lines : list Line) :
  ∃ polylines,
    extract_polylines set_order (build_graph lines) = Some polylines ∧
    (length polylines ≤ length (usable_segments lines))%nat.
Proof.
  destruct (extract_polylines_spec set_order (build_graph lines) (build_graph_NoDup lines))
    as (visited & polylines & _ & Hrun & Hnd & _ & Hcover & Hpaths).
  exists polylines. split; [done|].
  etrans; [apply polylines_edges_count|].
  { eapply Forall_impl; [exact Hpaths | by intros path [_ _ ?]]. }
  replace (length (usable_segments lines)) with (length (segment_keys lines))
    by (unfold segment_keys; by rewrite length_fmap).
  apply submseteq_length, NoDup_submseteq; [done|].
  intros e He. by apply elem_of_graph_edges_build, Hcover.
Qed.

Section Polylines.
Context (set_order : gset Point → list Point).

(** X10: what a consumer of the polylines can rely on.  Every polyline
    has at least 2 points, every step of a polyline joins the two ends of
    an input line, and there are at most as many polylines as usable
    segments; there is no polyline exactly when there is no usable
    segment. *)
Theorem polylines_well_formed (lines : list Line) :
  ∃ polylines,
    extract_polylines set_order (build_graph lines) = Some polylines ∧
    Forall (λ path, (2 ≤ length path)%nat) polylines ∧
    (∀ path i p q,
       path ∈ polylines → path !! i = Some p → path !! S i = Some q →
       (p, q) ∈ line_points <$> lines ∨ (q, p) ∈ line_points <$> lines) ∧
    (length polylines ≤ length (usable_segments lines))%nat ∧
    (polylines = [] ↔ usable_segments lines = []).
Proof.
  destruct (extract_polylines_spec set_order (build_graph lines) (build_graph_NoDup lines))
    as (visited & polylines & _ & Hrun & Hnd & _ & Hcover & Hpaths).
  assert (Forall (λ path, (2 ≤ length path)%nat) polylines) as Hlen
    by (eapply Forall_impl; [exact Hpaths | by intros path [_ _ ?]]).
  assert (length polylines ≤ length (usable_segments lines))%nat as Hcount.
  { destruct (polylines_count_le set_order lines) as (polylines' & Hrun' & Hle).
    rewrite Hrun in Hrun'. by simplify_eq. }
  exists polylines. split_and!; [done|done| |done|].
  - intros path i p q Hpath Hp Hq.
    eapply Forall_forall in Hpaths as [Hadj _ _]; [|done].
    pose proof (adjacent_lookup _ _ _ _ _ Hadj Hp Hq) as Hn.
    by apply elem_of_graph_get_build in Hn as [_ Hn].
  - split.
    + intros ->. destruct (usable_segments lines) as [|[u v] segs] eqn:Hus; [done|].
      assert (get_edge_key u v ∈ segment_keys lines) as Hk.
      { unfold segment_keys. rewrite Hus. left. }
      apply elem_of_graph_edges_build, Hcover in Hk. by apply elem_of_nil in Hk.
    + intros Hnil. rewrite Hnil in Hcount. by destruct polylines; [|simpl in Hcount; lia].
Qed.
End Polylines.

(** ** [simplify_dxf_bytes] *)

Lemma size_points_le (l : list Point) :
  (size (list_to_set l : gset Point) ≤ length l)%nat.
Proof.
  induction l as [|e l IH]; [done|].
  rewrite list_to_set_cons, size_union_alt, size_singleton. simpl.
  assert (size (list_to_set l ∖ {[e]} : gset Point) ≤ size (list_to_set l : gset Point))%nat
    by (apply subseteq_size; set_solver).
  lia.
Qed.

Lemma usable_segments_length (lines : list Line) :
  (length (usable_segments lines) ≤ length lines)%nat.
Proof.
  unfold usable_segments. etrans; [apply length_filter|]. by rewrite length_fmap.
Qed.

Lemma classes_of_sizes (graph : Graph) :
  NoDup graph.*1 →
  (size (find_endpoints_and_junctions graph).1 +
   size (find_endpoints_and_junctions graph).2 ≤ length graph)%nat.
Proof.
  intros Hnd. rewrite <- size_union.
  - rewrite <- (length_fmap fst graph). etrans; [|apply size_points_le].
    apply subseteq_size. intros p Hp. apply elem_of_list_to_set.
    apply elem_of_union in Hp as [Hp|Hp].
    + by apply elem_of_endpoints in Hp as [? _].
    + by apply elem_of_junctions in Hp as [? _].
  - intros q HE HJ. apply elem_of_endpoints in HE as [_ HE]; [|done].
    apply elem_of_junctions in HJ as [_ HJ]; [|done]. lia.
Qed.

Section Statistics.
Context (set_order : gset Point → list Point).

(** X11: [simplify_dxf_bytes] always returns or raises; it raises
    [ValueError] exactly when the drawing has no LINE entity.  When it
    returns, the new drawing holds one LWPOLYLINE per extracted polyline,
    in order, followed by the entities other than LINE that could be
    copied, in their original order, and [other_entities] counts the
    latter. *)
Theorem simplify_dxf_bytes_outcome (msp : list Entity) :
  ∃ outcome,
    simplify_dxf_bytes set_order msp = Some outcome ∧
    ((∃ msg, outcome = ValueError msg) ↔ query_lines msp = []) ∧
    ∀ output stats,
      outcome = Returned output stats →
      ∃ polylines,
        extract_polylines set_order (build_graph (query_lines msp)) = Some polylines ∧
        output = (LWPOLYLINE <$> polylines) ++ copy_others msp ∧
        stats !! "other_entities" = Some (PyInt (int_len (copy_others msp))).
Proof.
  unfold simplify_dxf_bytes.
  destruct (decide (int_len (query_lines msp) = 0)) as [Hz|Hnz].
  - eexists. split; [done|]. apply int_len_zero in Hz. split; [|done].
    split; [done | by eexists].
  - destruct (find_endpoints_and_junctions _) as [endpoints junctions].
    destruct (phase3_spec set_order (build_graph (query_lines msp)))
      as ([visited polylines] & Hrun & _).
    assert (extract_polylines set_order (build_graph (query_lines msp)) = Some polylines)
      as Hext by (unfold extract_polylines; by rewrite Hrun).
    rewrite Hext. cbn [mbind option_bind].
    eexists. split; [done|]. split.
    + split; [by intros [msg [=]] | by intros ?%int_len_zero].
    + intros output stats [= <- <-]. exists polylines.
      split_and!; [done|done|]. by simplify_map_eq.
Qed.

(** X12: the statistics are consistent.  When [simplify_dxf_bytes]
    returns, the endpoint and junction counts together do not exceed the
    number of unique points, the polyline count does not exceed the
    original line count, and the reduction ratio, when there is a
    polyline, is at least 1. *)
Theorem statistics_consistent (msp : list Entity) (output : list OutEntity)
    (stats : gmap string PyNum) :
  simplify_dxf_bytes set_order msp = Some (Returned output stats) →
  ∃ original points ends junctions count,
    stats !! "original_line_count" = Some (PyInt original) ∧
    stats !! "unique_points" = Some (PyInt points) ∧
    stats !! "endpoints" = Some (PyInt ends) ∧
    stats !! "junctions" = Some (PyInt junctions) ∧
    stats !! "polyline_count" = Some (PyInt count) ∧
    0 ≤ ends ∧ 0 ≤ junctions ∧ ends + junctions ≤ points ∧
    0 ≤ count ≤ original ∧
    ((count = 0 ∧ stats !! "reduction_ratio" = Some (PyInt 0)) ∨
     (0 < count ∧ ∃ r, stats !! "reduction_ratio" = Some (PyFloat r) ∧ Qle 1 r)).
Proof.
  unfold simplify_dxf_bytes.
  destruct (decide (int_len (query_lines msp) = 0)) as [Hz|Hnz]; [done|].
  set (lines := query_lines msp) in *. set (graph := build_graph lines).
  pose proof (build_graph_NoDup lines) as Hkeys. fold graph in Hkeys.
  pose proof (classes_of_sizes graph Hkeys) as Hsizes.
  destruct (find_endpoints_and_junctions graph) as [endpoints junctions]. cbn [fst snd] in Hsizes.
  destruct (polylines_count_le set_order lines) as (polylines & Hext & Hcount).
  fold graph in Hext. rewrite Hext. cbn [mbind option_bind]. intros [= <- <-].
  eexists _, _, _, _, _. split_and!; try (by simplify_map_eq); try (unfold int_len; lia).
  - unfold int_len. pose proof (usable_segments_length lines). lia.
  - destruct polylines as [|path polylines]; [left; by simplify_map_eq|right].
    split; [unfold int_len; simpl; lia|]. eexists. split; [by simplify_map_eq|].
    apply Qle_shift_div_l; [unfold int_len; simpl; reflexivity|].
    rewrite Qmult_1_l, <- Zle_Qle. pose proof (usable_segments_length lines).
    unfold int_len. lia.
Qed.
End Statistics.

Lemma statistics_consistent_witness :
  ∃ original points ends junctions count,
    original = 3 ∧ points = 4 ∧ ends = 2 ∧ junctions = 0 ∧ count = 1 ∧
    0 ≤ ends ∧ 0 ≤ junctions ∧ ends + junctions ≤ points ∧ 0 ≤ count ≤ original.
Proof.
  destruct (statistics_consistent elements
              [LINE (seg 0 0 1 0); LINE (seg 1 0 2 0); LINE (seg 2 0 3 0)]
              (match simplify_dxf_bytes elements
                       [LINE (seg 0 0 1 0); LINE (seg 1 0 2 0); LINE (seg 2 0 3 0)] with
               | Some (Returned output _) => output | _ => [] end)
              (match simplify_dxf_bytes elements
                       [LINE (seg 0 0 1 0); LINE (seg 1 0 2 0); LINE (seg 2 0 3 0)] with
               | Some (Returned _ stats) => stats | _ => ∅ end))
    as (original & points & ends & junctions & count & H1 & H2 & H3 & H4 & H5 & Hrest).
  - by vm_compute.
  - vm_compute in H1, H2, H3, H4, H5.
    injection H1 as <-. injection H2 as <-. injection H3 as <-.
    injection H4 as <-. injection H5 as <-.
    exists 3, 4, 2, 0, 1. repeat split; lia.
Defined.

(** ** The three phases *)

Section Added.
Context (graph : Graph) (endpoints junctions : gset Point).

Lemma sweep_neighbors_added point neighbors st st' :
  sweep_neighbors graph endpoints junctions point neighbors st = Some st' →
  ∃ added, st'.2 = st.2 ++ added ∧ Forall (λ path, head path = Some point) added.
Proof.
  revert st. induction neighbors as [|n ns IH]; intros st.
  - intros [= <-]. exists []. by rewrite app_nil_r.
  - cbn [sweep_neighbors]. case_decide; [apply IH|].
    destruct (trace_path_traced graph endpoints junctions point st.1)
      as (ext & vis' & -> & _). cbn [mbind option_bind].
    intros Hrun. apply IH in Hrun as (added & Hst & Hheads). cbn [snd] in Hst.
    case_decide.
    + exists ((point :: ext) :: added). rewrite Hst, <- app_assoc. split; [done|].
      by constructor.
    + by exists added.
Qed.

Lemma sweep_points_added points st st' :
  sweep_points graph endpoints junctions points st = Some st' →
  ∃ added, st'.2 = st.2 ++ added ∧
           Forall (λ path, ∃ p, p ∈ points ∧ head path = Some p) added.
Proof.
  revert st. induction points as [|point points IH]; intros st.
  - intros [= <-]. exists []. by rewrite app_nil_r.
  - cbn [sweep_points].
    destruct (sweep_neighbors _ _ _ _ _ _) as [st1|] eqn:Hrun1; [|done].
    cbn [mbind option_bind]. intros Hrun.
    apply sweep_neighbors_added in Hrun1 as (added1 & Hst1 & Hheads1).
    apply IH in Hrun as (added2 & Hst2 & Hheads2).
    exists (added1 ++ added2). rewrite Hst2, Hst1, <- app_assoc. split; [done|].
    apply Forall_app. split.
    + eapply Forall_impl; [exact Hheads1|]. intros path Hh. exists point. split; [left|done].
    + eapply Forall_impl; [exact Hheads2|]. intros path (p & Hp & Hh). exists p.
      split; [by right | done].
Qed.

Hypothesis graph_symmetric :
  ∀ p n, n ∈ graph_get graph p → p ∈ graph_get graph n.

Lemma traced_drained current vis ext vis' :
  traced graph endpoints junctions current vis ext vis' →
  boundary_drained graph endpoints junctions vis → ext ≠ [] →
  Forall (pass_through endpoints junctions) (current :: ext).
Proof.
  induction 1 as [cur vis Hnone|cur vis n Hn Hb|cur vis n ext vis' Hn Hb Htr IH];
    intros Hdr Hne; [done|..].
  - apply first_unvisited_Some in Hn as [Hin Hnew]. exfalso. apply Hnew.
    rewrite get_edge_key_comm. apply Hdr; [done | by apply graph_symmetric].
  - apply first_unvisited_Some in Hn as [Hin Hnew].
    assert (pass_through endpoints junctions cur) as Hcur.
    { split; intros Hc; apply Hnew, Hdr; auto. }
    constructor; [done|]. destruct ext as [|m ext].
    + constructor; [|done]. split; intros ?; apply Hb; auto.
    + apply IH; [|done]. intros p q Hp Hq. apply elem_of_union_r. by apply Hdr.
Qed.

Lemma sweep_neighbors_drained point neighbors st st' :
  boundary_drained graph endpoints junctions st.1 →
  sweep_neighbors graph endpoints junctions point neighbors st = Some st' →
  boundary_drained graph endpoints junctions st'.1 ∧
  ∃ added, st'.2 = st.2 ++ added ∧
           Forall (Forall (pass_through endpoints junctions)) added.
Proof.
  revert st. induction neighbors as [|n ns IH]; intros st Hdr.
  - intros [= <-]. split; [done|]. exists []. by rewrite app_nil_r.
  - cbn [sweep_neighbors]. case_decide; [by apply IH|].
    destruct (trace_path_traced graph endpoints junctions point st.1)
      as (ext & vis' & -> & Htr). cbn [mbind option_bind].
    intros Hrun. apply IH in Hrun as (Hdr' & added & Hst & Hclear).
    + split; [done|]. cbn [snd] in Hst. case_decide as Hlen.
      * exists ((point :: ext) :: added). rewrite Hst, <- app_assoc. split; [done|].
        constructor; [|done]. apply (traced_drained _ _ _ _ Htr Hdr).
        intros ->. simpl in Hlen. lia.
      * by exists added.
    + cbn [fst]. apply traced_spec in Htr as (-> & _).
      intros p q Hp Hq. apply elem_of_union_r. by apply Hdr.
Qed.

Lemma sweep_points_drained points st st' :
  boundary_drained graph endpoints junctions st.1 →
  sweep_points graph endpoints junctions points st = Some st' →
  ∃ added, st'.2 = st.2 ++ added ∧
           Forall (Forall (pass_through endpoints junctions)) added.
Proof.
  revert st. induction points as [|point points IH]; intros st Hdr.
  - intros [= <-]. exists []. by rewrite app_nil_r.
  - cbn [sweep_points].
    destruct (sweep_neighbors _ _ _ _ _ _) as [st1|] eqn:Hrun1; [|done].
    cbn [mbind option_bind]. intros Hrun.
    apply sweep_neighbors_drained in Hrun1 as (Hdr1 & added1 & Hst1 & Hclear1); [|done].
    apply IH in Hrun as (added2 & Hst2 & Hclear2); [|done].
    exists (added1 ++ added2). rewrite Hst2, Hst1, <- app_assoc. split; [done|].
    by apply Forall_app.
Qed.
End Added.

Lemma adjacent_has_neighbor (graph : Graph) (path : Polyline) (i : nat) (p : Point) :
  adjacent graph path → (2 ≤ length path)%nat → path !! i = Some p →
  ∃ n, n ∈ graph_get graph p ∨ p ∈ graph_get graph n.
Proof.
  intros Hadj Hlen Hp. destruct (path !! S i) as [q|] eqn:Hq.
  - exists q. left. by eapply adjacent_lookup.
  - destruct i as [|i].
    + apply lookup_ge_None in Hq. lia.
    + destruct (lookup_lt_is_Some_2 path i) as [q' Hq'];
        [apply lookup_lt_Some in Hp; lia|].
      exists q'. right. by eapply adjacent_lookup.
Qed.

Lemma pass_through_degree (lines : list Line) (p n : Point) :
  n ∈ graph_get (build_graph lines) p ∨ p ∈ graph_get (build_graph lines) n →
  pass_through (find_endpoints_and_junctions (build_graph lines)).1
    (find_endpoints_and_junctions (build_graph lines)).2 p →
  length (graph_get (build_graph lines) p) = 2%nat.
Proof.
  intros Hn [HE HJ].
  assert (n ∈ graph_get (build_graph lines) p) as Hnb
    by (destruct Hn; [done | by apply build_graph_symmetric]).
  pose proof (build_graph_NoDup lines) as Hkeys.
  assert (p ∈ (build_graph lines).*1) as Hkey.
  { apply graph_get_key. intros Hnil. rewrite Hnil in Hnb. by apply elem_of_nil in Hnb. }
  rewrite elem_of_endpoints in HE by done. rewrite elem_of_junctions in HJ by done.
  destruct (graph_get (build_graph lines) p) as [|? [|? [|? ?]]] eqn:Hget; simpl in *.
  - by apply elem_of_nil in Hnb.
  - exfalso. apply HE. auto.
  - done.
  - exfalso. apply HJ. split; [done | lia].
Qed.

Section PhaseResults.
Context (set_order : gset Point → list Point).

(** X13: what each phase contributes.  The polylines returned are those
    found in the first phase, then those of the second, then those of the
    third; each polyline of the first phase starts at an endpoint, each
    of the second at a junction, and a polyline of the third phase passes
    through points of degree 2 only. *)
Theorem phases_find (lines : list Line) :
  set_order_ok set_order →
  ∃ visited1 visited2 found1 found2 found3,
    phase1 set_order (build_graph lines) = Some (visited1, found1) ∧
    phase2 set_order (build_graph lines) = Some (visited2, found1 ++ found2) ∧
    extract_polylines set_order (build_graph lines)
      = Some (found1 ++ found2 ++ found3) ∧
    Forall (λ path, ∃ p, p ∈ (find_endpoints_and_junctions (build_graph lines)).1 ∧
                         head path = Some p) found1 ∧
    Forall (λ path, ∃ p, p ∈ (find_endpoints_and_junctions (build_graph lines)).2 ∧
                         head path = Some p) found2 ∧
    Forall (Forall (λ p, length (graph_get (build_graph lines) p) = 2%nat)) found3.
Proof.
  intros Hord.
  pose proof (pass_through_degree lines) as Hdeg.
  destruct (extract_polylines_spec set_order (build_graph lines) (build_graph_NoDup lines))
    as (visited & polylines & Hphase3 & Hret & _ & _ & _ & Hpaths).
  revert Hdeg Hpaths Hphase3 Hret. unfold extract_polylines, phase3, phase2, phase1.
  destruct (find_endpoints_and_junctions (build_graph lines)) as [E J]. cbn [fst snd].
  intros Hdeg Hpaths Hphase3 Hret.
  destruct (sweep_points_spec (build_graph lines) E J (set_order E) (∅, []))
    as ([v1 f1] & Hrun1 & Hok1 & _ & Hcov1); [apply state_ok_init|].
  destruct (sweep_points_added _ _ _ _ _ _ Hrun1) as (found1 & Hf1 & Hh1).
  cbn [fst snd app] in *. subst f1.
  destruct (sweep_points_spec (build_graph lines) E J (set_order J) (v1, found1))
    as ([v2 f2] & Hrun2 & Hok2 & Hsub2 & Hcov2); [done|].
  destruct (sweep_points_added _ _ _ _ _ _ Hrun2) as (found2 & Hf2 & Hh2).
  cbn [fst snd] in *. subst f2.
  rewrite Hrun1 in *. cbn [mbind option_bind] in *. rewrite Hrun2 in *.
  cbn [mbind option_bind] in *.
  assert (boundary_drained (build_graph lines) E J v2) as Hdrained.
  { intros p n [Hp|Hp] Hn.
    - apply Hsub2, (Hcov1 p n); [|done]. rewrite (Hord E). by apply elem_of_elements.
    - apply (Hcov2 p n); [|done]. rewrite (Hord J). by apply elem_of_elements. }
  apply (sweep_points_drained _ _ _ (build_graph_symmetric lines)) in Hphase3
    as (found3 & Hf3 & Hclear); [|done]. cbn [snd] in Hf3. subst polylines.
  exists v1, v2, found1, found2, found3.
  rewrite <- app_assoc in Hret. split_and!; [done|done|done| | |].
  - eapply Forall_impl; [exact Hh1|]. intros path (p & Hp & Hh). exists p. split; [|done].
    rewrite (Hord E) in Hp. by apply elem_of_elements in Hp.
  - eapply Forall_impl; [exact Hh2|]. intros path (p & Hp & Hh). exists p. split; [|done].
    rewrite (Hord J) in Hp. by apply elem_of_elements in Hp.
  - apply Forall_app in Hpaths as [_ Hpaths3].
    apply Forall_forall. intros path Hpath. apply Forall_forall. intros p Hp.
    eapply Forall_forall in Hpaths3 as [Hadj _ Hlen]; [|done].
    eapply Forall_forall in Hclear; [|done]. eapply Forall_forall in Hclear; [|done].
    apply list_elem_of_lookup in Hp as [i Hi].
    destruct (adjacent_has_neighbor _ _ _ _ Hadj Hlen Hi) as [n Hn].
    by apply (Hdeg p n).
Qed.
End PhaseResults.

Lemma phases_find_witness :
  ∃ found1 found2 found3,
    extract_polylines elements (build_graph junction_lines)
      = Some (found1 ++ found2 ++ found3) ∧
    Forall (Forall (λ p, length (graph_get (build_graph junction_lines) p) = 2%nat))
      found3.
Proof.
  destruct (phases_find elements junction_lines)
    as (v1 & v2 & f1 & f2 & f3 & _ & _ & Hret & _ & _ & H3).
  - intros s. reflexivity.
  - exists f1, f2, f3. split; [exact Hret | exact H3].
Defined.

(** ** The SVG reader *)

(** X14: the graph [build_graph] of [simplify_dxf.py] builds from LINE
    entities is the graph [build_graph] of [simplify_svg.py] builds from
    their rounded ends. *)
Theorem build_graph_as_svg (lines : list Line) :
  build_graph lines = Svg.build_graph (line_points <$> lines).
Proof.
  unfold build_graph, Svg.build_graph. generalize ([] : Graph).
  induction lines as [|line lines IH]; intros g; [done|].
  rewrite fmap_cons. cbn [foldl]. rewrite IH. f_equal.
Qed.






Lemma pairs_ind {A} (P : list A → Prop) :
  P [] → (∀ x, P [x]) → (∀ x y l, P l → P (x :: y :: l)) → ∀ l, P l.
Proof.
  intros Hnil Hone Hstep l.
  assert (P l ∧ ∀ x, P (x :: l)) as [? _]; [|done].
  induction l as [|y l [IH1 IH2]]; [by split|]. split; [apply IH2|].
  intros x. by apply Hstep.
Qed.

Lemma parse_tokens_lineto (numbers : list Q) (polygon : bool) (cur start : Q * Q) :
  Svg.parse_tokens ((Svg.TNum <$> numbers) ++
                    (if polygon then [Svg.TCmd Svg.cmd_Z] else []))
    cur start Svg.cmd_L =
  Svg.consecutive_segments (round_point cur.1 cur.2 :: Svg.pair_points numbers) ++
  closing polygon
    (default (round_point cur.1 cur.2)
       (last (round_point cur.1 cur.2 :: Svg.pair_points numbers)))
    (round_point start.1 start.2).
Proof.
  revert cur. induction numbers as [|x|x y numbers IH] using pairs_ind; intros cur.
  - destruct polygon; [|done]. cbn. unfold Svg.emit, closing.
    case_decide; by rewrite ?app_nil_r.
  - destruct polygon; [|done]. cbn. unfold Svg.emit, closing.
    case_decide; by rewrite ?app_nil_r.
  - rewrite !fmap_cons. cbn [app Svg.parse_tokens]. rewrite IH. cbn [fst snd].
    change (Svg.pair_points (x :: y :: numbers))
      with (round_point x y :: Svg.pair_points numbers).
    change (Svg.consecutive_segments
              (round_point cur.1 cur.2 :: round_point x y :: Svg.pair_points numbers))
      with ((if decide (round_point cur.1 cur.2 = round_point x y) then []
             else [(round_point cur.1 cur.2, round_point x y)]) ++
            Svg.consecutive_segments (round_point x y :: Svg.pair_points numbers)).
    rewrite <- app_assoc. f_equal. f_equal. f_equal.
    change (last (round_point cur.1 cur.2 :: round_point x y :: Svg.pair_points numbers))
      with (last (round_point x y :: Svg.pair_points numbers)).
    destruct (last (round_point x y :: Svg.pair_points numbers)) eqn:Hlast; [done|].
    by apply last_None in Hlast.
Qed.

(** X16: a path written [M n0 n1 n2 ...] gives the segments of the
    polyline whose points are [n0 n1 n2 ...], and with a closing [Z], of
    the polygon; a last number without its pair is dropped by both. *)
Theorem path_as_polyline (numbers : list Q) (polygon : bool) :
  Svg.parse_path_d (Svg.TCmd Svg.cmd_M :: (Svg.TNum <$> numbers) ++
                    (if polygon then [Svg.TCmd Svg.cmd_Z] else [])) =
  Svg.parse_polyline_element numbers polygon.
Proof.
  unfold Svg.parse_path_d, Svg.parse_polyline_element. cbn [Svg.parse_tokens].
  destruct numbers as [|x [|y numbers]].
  - destruct polygon; [|done]. cbn. unfold Svg.emit. by rewrite decide_True.
  - destruct polygon; [|done]. cbn. unfold Svg.emit. by rewrite decide_True.
  - rewrite !fmap_cons. cbn [app Svg.parse_tokens]. rewrite parse_tokens_lineto.
    cbn [fst snd].
    change (Svg.pair_points (x :: y :: numbers))
      with (round_point x y :: Svg.pair_points numbers).
    f_equal. unfold closing. destruct polygon; [|done]. cbn [andb head].
    destruct (Svg.pair_points numbers) as [|q points] eqn:Hp.
    + cbn. by rewrite decide_True.
    + rewrite bool_decide_eq_true_2 by (simpl; lia).
      destruct (last (round_point x y :: q :: points)) eqn:Hlast; [done|].
      by apply last_None in Hlast.
Qed.

(** ** The converter *)



Lemma bounds_None (polylines : list (list (Q * Q))) :
  Converter.bounds polylines = None ↔ polylines ≠ [] ∧ polylines ≫= id = [].
Proof.
  unfold Converter.bounds. destruct polylines as [|path polylines]; [naive_solver|].
  change (p ← path :: polylines; p) with ((path :: polylines) ≫= id).
  destruct ((path :: polylines) ≫= id) as [|[x y] points]; [done|].
  cbn. naive_solver.
Qed.

(** X17: [polylines_to_svg] fails (on [min] of an empty sequence) exactly
    when it is given polylines, none of which has a point; without any
    polyline it writes the default view box 0 0 100 100, flipped. *)
Theorem polylines_to_svg_fails (polylines : list (list (Q * Q)))
    (width height : option Q) (units : string) :
  (Converter.polylines_to_svg polylines width height units = None ↔
     polylines ≠ [] ∧ Forall (λ points, points = []) polylines) ∧
  Converter.view_box <$> Converter.polylines_to_svg [] width height units
    = Some (0%Q, Qopp (inject_Z 100), Qminus (inject_Z 100) 0, Qminus (inject_Z 100) 0).
Proof.
  split; [|done].
  unfold Converter.polylines_to_svg.
  assert (polylines ≫= id = [] ↔ Forall (λ points, points = []) polylines) as Hall.
  { induction polylines as [|path polylines IH]; [by split|].
    rewrite bind_cons, Forall_cons, <- IH. unfold id at 1.
    split; [by intros [-> ->]%app_eq_nil | by intros [-> ->]]. }
  rewrite <- Hall, <- bounds_None.
  destruct (Converter.bounds polylines) as [[[[min_x min_y] max_x] max_y]|]; by split.
Qed.



Lemma extract_polylines_from_dxf_length (msp : list Converter.Entity) :
  Forall (λ points, (2 ≤ length points)%nat) (Converter.extract_polylines_from_dxf msp).
Proof.
  unfold Converter.extract_polylines_from_dxf. rewrite !Forall_app.
  split_and!; apply Forall_forall; intros points Hp;
    apply list_elem_of_omap in Hp as (e & _ & He); destruct e; try done.
  - by case_decide; simplify_eq.
  - by case_decide; simplify_eq.
  - simplify_eq. simpl. lia.
Qed.

(** X19: [dxf_to_svg] never fails on the bounds: every polyline it reads
    from the drawing has at least 2 points, and each of them becomes a
    path of the SVG, in order: the LWPOLYLINEs, then the POLYLINEs, then
    the LINEs. *)
Theorem dxf_to_svg_paths (msp : list Converter.Entity) :
  ∃ doc,
    Converter.dxf_to_svg msp = Some doc ∧
    Converter.svg_paths doc =
      (λ points : list (Q * Q), (λ p : Q * Q, (p.1, Qopp p.2)) <$> points) <$>
      Converter.extract_polylines_from_dxf msp ∧
    Forall (λ points, (2 ≤ length points)%nat) (Converter.extract_polylines_from_dxf msp).
Proof.
  pose proof (extract_polylines_from_dxf_length msp) as Hlen.
  unfold Converter.dxf_to_svg, Converter.polylines_to_svg.
  destruct (Converter.bounds (Converter.extract_polylines_from_dxf msp))
    as [[[[min_x min_y] max_x] max_y]|] eqn:Hb.
  - eexists. split; [done|]. cbn. split; [|done]. f_equal.
    clear Hb. induction Hlen as [|points rest Hp _ IH]; [done|].
    rewrite filter_cons, decide_True by lia. by rewrite IH.
  - apply bounds_None in Hb as [Hne Hnil]. exfalso.
    destruct (Converter.extract_polylines_from_dxf msp) as [|points rest]; [done|].
    apply Forall_cons in Hlen as [Hp _]. rewrite bind_cons in Hnil.
    apply app_eq_nil in Hnil as [Hnil _]. unfold id in Hnil. subst. simpl in Hp. lia.
Qed.

